(** * statsd_exporter: the UDP relay and the exporter's reload and cache set-up

    A shallow embedding of
    - [pkg/relay/relay.go]: [RelayLine], [sendPacket] and the flush loop
      [relayOutput];
    - the exporter's [main] package: [reloadConfig] and [getCache].

    Go values are modelled as follows.
    - [uint] and [int] are 64 bits wide; a value is a [Z] and every
      conversion and subtraction that can wrap is written out.
    - A [string] and a [[]byte] are a [list byte].
    - A Prometheus counter is the number of times it was incremented; a
      counter vector maps the list of label values to such a number.
    - The logger is the list of records handed to it, oldest first.
    - The buffered channel is the FIFO list of the values sent and not yet
      received.  Its capacity of 100 decides when a sender waits, never what
      is sent, and is not part of the state; [BoundedChannel] adds it where
      the waiting matters.
    - The UDP socket records the datagrams handed to it; whether the n-th
      write fails is decided by the environment. *)

From Stdlib Require Import ZArith List Lia Strings.Byte Strings.String.
From stdpp Require Import base option list gmap strings.

Local Open Scope Z_scope.

(** ** Go primitives *)

Module Go.

Definition bytes : Type := list byte.

#[global] Instance byte_eq_decision : EqDecision byte := byte_eq_dec.

Definition uint_bits : Z := 64.
Definition uint_modulus : Z := 2 ^ uint_bits.
Definition max_uint : Z := uint_modulus - 1.
Definition max_int : Z := 2 ^ (uint_bits - 1) - 1.
Definition min_int : Z := - 2 ^ (uint_bits - 1).

(** [uint(x)]: conversion to the unsigned type keeps the low 64 bits. *)
Definition to_uint (z : Z) : Z := z mod uint_modulus.

(** [int(x)]: the same bits read as a two's complement number. *)
Definition to_int (z : Z) : Z := (z - min_int) mod uint_modulus + min_int.

(** [a - b] on [uint]. *)
Definition uint_sub (a b : Z) : Z := to_uint (a - b).

(** [a + b] on [int]. *)
Definition int_add (a b : Z) : Z := to_int (a + b).

(** [len(s)], an [int]. *)
Definition len {A : Type} (s : list A) : Z := Z.of_nat (length s).

(** A value the type [uint] can hold. *)
Definition is_uint (z : Z) : Prop := 0 <= z <= max_uint.

(** A string or slice Go can hold: its length is an [int]. *)
Definition representable {A : Type} (s : list A) : Prop := len s <= max_int.

(** [strings.HasSuffix]:
    [len(s) >= len(suffix) && s[len(s)-len(suffix):] == suffix]. *)
Definition HasSuffix (s suffix : bytes) : bool :=
  (len suffix <=? len s)
  && bool_decide (drop (length s - length suffix) s = suffix).

(** Error values.  [Errorf] is the result of [fmt.Errorf] with one
    argument; [External] is an error made outside these files (the
    network stack, the mapper package). *)
Inductive error : Type :=
| Errorf (format : string) (arg : string)
| External (description : string).

(** [bytes.Buffer.Write] appends to the buffer and panics with
    [ErrTooLarge] when the buffer cannot hold the data; the model lets the
    buffer grow up to the longest slice Go has.  [None] is the panic. *)
Definition Buffer_Write (buffer p : bytes) : option bytes :=
  if len buffer + len p <=? max_int then Some (buffer ++ p) else None.

End Go.

(** ** Structured logging *)

Module Slog.

Inductive Level : Type := Debug | Info | Warn | Error.

Inductive Value : Type :=
| VInt (n : Z)
| VUint (n : Z)
| VString (s : Go.bytes)
| VError (e : Go.error).

Record Entry : Type := mkEntry {
  level : Level;
  msg : string;
  attrs : list (string * Value)
}.

(** The records handed to the logger, oldest first.  A handler may drop
    those under its level; the calls are all recorded. *)
Definition Logger : Type := list Entry.

Definition log (lg : Logger) (lv : Level) (m : string)
    (kv : list (string * Value)) : Logger :=
  lg ++ [mkEntry lv m kv].

End Slog.

(** ** Prometheus collectors *)

Module Prom.

Definition Counter : Type := nat.
Definition Inc (c : Counter) : Counter := S c.

Definition Gauge : Type := Z.

(** A vector of counters, one per list of label values. *)
Definition WithLabelValues (v : gmap (list string) nat)
    (lvs : list string) : Counter :=
  default 0%nat (v !! lvs).

(** [v.WithLabelValues(lvs...).Inc()] *)
Definition IncWith (v : gmap (list string) nat)
    (lvs : list string) : gmap (list string) nat :=
  <[lvs := Inc (WithLabelValues v lvs)]> v.

End Prom.

(** ** pkg/relay *)

Module Relay.
Import Go.

Definition newline : bytes := [x0a].

(** The socket: the datagrams handed to [WriteToUDP], oldest first, and
    the environment's verdict on the n-th write. *)
Record UDPConn : Type := mkConn {
  written : list bytes;
  outcome : nat -> option error
}.

Definition WriteToUDP (c : UDPConn) (buf : bytes) : UDPConn * option error :=
  (mkConn (written c ++ [buf]) (outcome c),
   outcome c (length (written c))).

Record Relay : Type := mkRelay {
  addr : string;
  bufferChannel : list bytes;
  conn : UDPConn;
  logger : Slog.Logger;
  packetLength : Z;
  packetsTotal : Prom.Counter;
  longLinesTotal : Prom.Counter;
  relayedLinesTotal : Prom.Counter
}.

Definition with_logger (r : Relay) (lg : Slog.Logger) : Relay :=
  mkRelay (addr r) (bufferChannel r) (conn r) lg (packetLength r)
          (packetsTotal r) (longLinesTotal r) (relayedLinesTotal r).

Definition with_channel (r : Relay) (ch : list bytes) : Relay :=
  mkRelay (addr r) ch (conn r) (logger r) (packetLength r)
          (packetsTotal r) (longLinesTotal r) (relayedLinesTotal r).

Definition with_conn (r : Relay) (c : UDPConn) : Relay :=
  mkRelay (addr r) (bufferChannel r) c (logger r) (packetLength r)
          (packetsTotal r) (longLinesTotal r) (relayedLinesTotal r).

Definition inc_packetsTotal (r : Relay) : Relay :=
  mkRelay (addr r) (bufferChannel r) (conn r) (logger r) (packetLength r)
          (Prom.Inc (packetsTotal r)) (longLinesTotal r)
          (relayedLinesTotal r).

Definition inc_longLinesTotal (r : Relay) : Relay :=
  mkRelay (addr r) (bufferChannel r) (conn r) (logger r) (packetLength r)
          (packetsTotal r) (Prom.Inc (longLinesTotal r))
          (relayedLinesTotal r).

Definition inc_relayedLinesTotal (r : Relay) : Relay :=
  mkRelay (addr r) (bufferChannel r) (conn r) (logger r) (packetLength r)
          (packetsTotal r) (longLinesTotal r)
          (Prom.Inc (relayedLinesTotal r)).

Definition log (r : Relay) (lv : Slog.Level) (m : string)
    (kv : list (string * Slog.Value)) : Relay :=
  with_logger r (Slog.log (logger r) lv m kv).

(** The relay [NewRelay] returns once the target resolved and the socket
    opened, for a target no counter was kept for yet: nothing queued,
    nothing written. *)
Definition NewRelay (l : Slog.Logger) (target : string) (packetLength : Z)
    (net : nat -> option error) : Relay :=
  mkRelay target [] (mkConn [] net) l packetLength 0%nat 0%nat 0%nat.

(** [sendPacket] *)
Definition sendPacket (r : Relay) (buf : bytes) : Relay * option error :=
  if len buf =? 0 then
    (log r Slog.Debug "Empty buffer, nothing to send" [], None)
  else
    let r1 := log r Slog.Debug "Sending packet"
                  [("length", Slog.VInt (len buf));
                   ("data", Slog.VString buf)] in
    let '(c, err) := WriteToUDP (conn r1) buf in
    (inc_packetsTotal (with_conn r1 c), err).

(** [RelayLine] *)
Definition RelayLine (r : Relay) (l : bytes) : Relay :=
  let lineLength := to_uint (len l) in
  if lineLength =? 0 then
    log r Slog.Debug "Empty line, not relaying" []
  else if lineLength >? uint_sub (packetLength r) 1 then
    inc_longLinesTotal
      (log r Slog.Warn "line too long, not relaying"
           [("length", Slog.VUint lineLength);
            ("max", Slog.VUint (packetLength r))])
  else
    let r1 := log r Slog.Debug "Relaying line" [("line", Slog.VString l)] in
    let l' := if negb (HasSuffix l newline) then l ++ newline else l in
    let r2 := inc_relayedLinesTotal r1 in
    with_channel r2 (bufferChannel r2 ++ [l']).

(** The flush loop's own state: the local [buffer] and where control is.
    [Returned] is the [return] after a failed send, [Panicked] a panic of
    [buffer.Write]. *)
Inductive Status : Type := Running | Returned | Panicked.

Record Loop : Type := mkLoop {
  buffer : bytes;
  status : Status
}.

Definition start : Loop := mkLoop [] Running.

(** Which case of the [select] fires. *)
Inductive SelectCase : Type := Tick | Recv.

(** [buffer.Write(b)] in the loop. *)
Definition write (r : Relay) (buf b : bytes) : Relay * Loop :=
  match Buffer_Write buf b with
  | Some buf' => (r, mkLoop buf' Running)
  | None => (r, mkLoop buf Panicked)
  end.

(** The comparison that guards the capacity-triggered send. *)
Definition over_capacity (r : Relay) (buf b : bytes) : bool :=
  to_uint (int_add (len b) (len buf)) >? packetLength r.

(** One turn of the [for] loop of [relayOutput].  [Recv] with nothing
    queued cannot fire: the state is left as it is. *)
Definition relayOutput_body (c : SelectCase) (r : Relay) (st : Loop)
    : Relay * Loop :=
  match c with
  | Tick =>
      let '(r1, err) := sendPacket r (buffer st) in
      match err with
      | Some e =>
          (log r1 Slog.Error "Error sending UDP packet"
               [("error", Slog.VError e)],
           mkLoop (buffer st) Returned)
      | None => (r1, mkLoop [] Running)
      end
  | Recv =>
      match bufferChannel r with
      | [] => (r, st)
      | b :: rest =>
          let r0 := with_channel r rest in
          if over_capacity r0 (buffer st) b then
            let r1 := log r0 Slog.Debug "Buffer full, sending packet"
                          [("length", Slog.VInt (len (buffer st)))] in
            let '(r2, err) := sendPacket r1 (buffer st) in
            match err with
            | Some e =>
                (log r2 Slog.Error "Error sending UDP packet"
                     [("error", Slog.VError e)],
                 mkLoop (buffer st) Returned)
            | None => write r2 [] b
            end
          else
            write (log r0 Slog.Debug "Adding line to buffer"
                       [("line", Slog.VString b)])
                  (buffer st) b
      end
  end.

Definition relayOutput_step (c : SelectCase) (s : Relay * Loop)
    : Relay * Loop :=
  match status (snd s) with
  | Running => relayOutput_body c (fst s) (snd s)
  | _ => s
  end.

(** [relayOutput] along a schedule: the cases the [select] takes, in
    order. *)
Definition relayOutput (sched : list SelectCase) (s : Relay * Loop)
    : Relay * Loop :=
  fold_left (fun s c => relayOutput_step c s) sched s.

End Relay.

(** ** The exporter's main package *)

Module Main.
Import Go.

(** What [main] uses from the packages [mapper], [mappercache/lru] and
    [mappercache/randomreplacement], whose code is not part of this
    development.

    [InitFromFile fileName m g lg] is [m.InitFromFile(fileName)] for a
    mapper [m] that holds the gauge [g] and the logger [lg]: the mapper,
    the gauge and the logger after the call, and the error returned.

    The two constructors take the registerer and the size; they return
    the registerer after their registrations, the pointer and the
    error. *)
Class MapperPackages : Type := {
  MetricMapper : Type;
  InitFromFile :
    string -> MetricMapper -> Prom.Gauge -> Slog.Logger ->
    MetricMapper * Prom.Gauge * Slog.Logger * option error;
  Registerer : Type;
  metricMapperLRUCache : Type;
  metricMapperRRCache : Type;
  NewMetricMapperLRUCache :
    Registerer -> Z -> Registerer * (metricMapperLRUCache * option error);
  NewMetricMapperRRCache :
    Registerer -> Z -> Registerer * (metricMapperRRCache * option error)
}.

(** The package-level collectors. *)
Record Metrics : Type := mkMetrics {
  eventStats : gmap (list string) nat;
  eventsFlushed : Prom.Counter;
  eventsUnmapped : Prom.Counter;
  udpPackets : Prom.Counter;
  udpPacketDrops : Prom.Counter;
  tcpConnections : Prom.Counter;
  tcpErrors : Prom.Counter;
  tcpLineTooLong : Prom.Counter;
  unixgramPackets : Prom.Counter;
  linesReceived : Prom.Counter;
  samplesReceived : Prom.Counter;
  sampleErrors : gmap (list string) nat;
  tagsReceived : Prom.Counter;
  tagErrors : Prom.Counter;
  configLoads : gmap (list string) nat;
  mappingsCount : Prom.Gauge;
  conflictingEventStats : gmap (list string) nat;
  errorEventStats : gmap (list string) nat;
  eventsActions : gmap (list string) nat;
  metricsCount : gmap (list string) Z
}.

Definition with_configLoads (m : Metrics) (v : gmap (list string) nat)
    : Metrics :=
  mkMetrics (eventStats m) (eventsFlushed m) (eventsUnmapped m)
    (udpPackets m) (udpPacketDrops m) (tcpConnections m) (tcpErrors m)
    (tcpLineTooLong m) (unixgramPackets m) (linesReceived m)
    (samplesReceived m) (sampleErrors m) (tagsReceived m) (tagErrors m)
    v (mappingsCount m) (conflictingEventStats m) (errorEventStats m)
    (eventsActions m) (metricsCount m).

Definition with_mappingsCount (m : Metrics) (g : Prom.Gauge) : Metrics :=
  mkMetrics (eventStats m) (eventsFlushed m) (eventsUnmapped m)
    (udpPackets m) (udpPacketDrops m) (tcpConnections m) (tcpErrors m)
    (tcpLineTooLong m) (unixgramPackets m) (linesReceived m)
    (samplesReceived m) (sampleErrors m) (tagsReceived m) (tagErrors m)
    (configLoads m) g (conflictingEventStats m) (errorEventStats m)
    (eventsActions m) (metricsCount m).

(** The collectors with [mappingsCount] and [configLoads] left out: the
    state [reloadConfig] has no statement on. *)
Definition other_collectors (m : Metrics) : Metrics :=
  with_configLoads (with_mappingsCount m 0) ∅.

(** What [reloadConfig] acts on besides the mapper. *)
Record Process : Type := mkProcess {
  metrics : Metrics;
  logger : Slog.Logger
}.

(** The interface [mapper.MetricMapperCache] with the dynamic type of the
    value it holds; the nil interface is [None]. *)
Inductive MetricMapperCache `{MapperPackages} : Type :=
| LRU (c : metricMapperLRUCache)
| Random (c : metricMapperRRCache).

Section Functions.
Context `{MapperPackages}.

(** [reloadConfig] *)
Definition reloadConfig (fileName : string) (mapper : MetricMapper)
    (p : Process) : MetricMapper * Process :=
  let '(mapper', g, lg, err) :=
    InitFromFile fileName mapper (mappingsCount (metrics p)) (logger p) in
  let m := with_mappingsCount (metrics p) g in
  match err with
  | Some e =>
      (mapper',
       mkProcess
         (with_configLoads m (Prom.IncWith (configLoads m) ["failure"]))
         (Slog.log lg Slog.Info "Error reloading config"
                   [("error", Slog.VError e)]))
  | None =>
      (mapper',
       mkProcess
         (with_configLoads m (Prom.IncWith (configLoads m) ["success"]))
         (Slog.log lg Slog.Info "Config reloaded successfully" []))
  end.

(** [getCache] *)
Definition getCache (cacheSize : Z) (cacheType : string)
    (registerer : Registerer)
    : Registerer * (option MetricMapperCache * option error) :=
  if cacheSize =? 0 then (registerer, (None, None))
  else
    let '(reg, (cache, err)) :=
      if bool_decide (cacheType = "lru") then
        let '(reg, (c, e)) :=
          NewMetricMapperLRUCache registerer cacheSize in
        (reg, (Some (LRU c), e))
      else if bool_decide (cacheType = "random") then
        let '(reg, (c, e)) :=
          NewMetricMapperRRCache registerer cacheSize in
        (reg, (Some (Random c), e))
      else
        (registerer,
         (None, Some (Errorf "unsupported cache type %q" cacheType)))
    in
    match err with
    | Some e => (reg, (None, Some e))
    | None => (reg, (cache, None))
    end.

End Functions.

End Main.

(** ** Vocabulary of the statements *)

Module RelaySpec.
Import Go Relay.

(** The line passes both guards of [RelayLine]. *)
Definition accepted (r : Relay) (l : bytes) : bool :=
  let lineLength := to_uint (len l) in
  negb (lineLength =? 0) && negb (lineLength >? uint_sub (packetLength r) 1).

(** The last byte of the line is a newline. *)
Definition ends_in_newline (l : bytes) : Prop := last l = Some x0a.

(** A line with its terminating newline, added when absent. *)
Definition terminated (l : bytes) : bytes :=
  match last l with
  | Some b => if bool_decide (b = x0a) then l else l ++ [x0a]
  | None => l ++ [x0a]
  end.

(** Whether this turn of the loop calls [sendPacket]. *)
Definition sends (c : SelectCase) (r : Relay) (st : Loop) : bool :=
  match c with
  | Tick => true
  | Recv =>
      match bufferChannel r with
      | [] => false
      | b :: _ => over_capacity r (buffer st) b
      end
  end.

(** The verdict of the environment on the next write of the socket. *)
Definition next_write (r : Relay) : option error :=
  outcome (conn r) (length (written (conn r))).

(** All bytes on their way to the target, in order: those handed to the
    socket, those in the loop's buffer, those still queued. *)
Definition stream (s : Relay * Loop) : bytes :=
  concat (written (conn (fst s))) ++ buffer (snd s)
    ++ concat (bufferChannel (fst s)).

(** A queued line within the bound [RelayLine] lets through: at most
    [packetLength] bytes once terminated. *)
Definition within_bound (pl : Z) (b : bytes) : Prop :=
  len b <= pl /\ representable b.

(** A datagram of the size the relay is configured for. *)
Definition well_sized (pl : Z) (d : bytes) : Prop :=
  0 < len d <= pl.

(** What holds of the relay and its loop at every moment, for the packet
    length [pl] and the datagrams [w0] written before: the datagrams
    written since are well sized, the queued lines and the buffer are
    within the bound. *)
Definition flush_invariant (pl : Z) (w0 : list bytes) (s : Relay * Loop)
    : Prop :=
  packetLength (fst s) = pl /\
  (exists new : list bytes,
      written (conn (fst s)) = w0 ++ new /\ Forall (well_sized pl) new) /\
  Forall (within_bound pl) (bufferChannel (fst s)) /\
  within_bound pl (buffer (snd s)).

(** The relay and its flush loop side by side: a listener calls
    [RelayLine], or the loop takes a turn. *)
Inductive Event : Type :=
| Call (l : bytes)
| Turn (c : SelectCase).

Definition system_step (s : Relay * Loop) (e : Event) : Relay * Loop :=
  match e with
  | Call l => (RelayLine (fst s) l, snd s)
  | Turn c => relayOutput_step c s
  end.

Definition system_run (es : list Event) (s : Relay * Loop) : Relay * Loop :=
  fold_left system_step es s.

(** A line a listener can pass: [l + "\n"] exists. *)
Definition callable (e : Event) : Prop :=
  match e with
  | Call l => representable (l ++ newline)
  | Turn _ => True
  end.

(** The datagrams [sendPacket] hands to the socket for a buffer. *)
Definition datagram_of (buf : bytes) : list bytes :=
  match buf with
  | [] => []
  | _ => [buf]
  end.

(** The relay as [sendPacket] finds it on the capacity path. *)
Definition before_flush (r : Relay) (st : Loop) (rest : list bytes)
    : Relay :=
  log (with_channel r rest) Slog.Debug "Buffer full, sending packet"
      [("length", Slog.VInt (len (buffer st)))].

(** Sample values. *)
Definition reliable : nat -> option error := fun _ => None.
Definition unreachable : nat -> option error :=
  fun _ => Some (External "write: connection refused").
Definition sample_relay (packetLength : Z) (net : nat -> option error)
    : Relay :=
  NewRelay [] "collector:9125" packetLength net.
Definition counter_line : bytes := list_byte_of_string "a:1|c".
Definition gauge_line : bytes := list_byte_of_string "b:22|g".

End RelaySpec.

Module MainSpec.
Import Go Main.

(** The outcome label [reloadConfig] counts under. *)
Definition outcome_label (err : option error) : string :=
  match err with
  | Some _ => "failure"
  | None => "success"
  end.

(** The record [reloadConfig] hands to the logger. *)
Definition outcome_entry (err : option error) : Slog.Entry :=
  match err with
  | Some e =>
      Slog.mkEntry Slog.Info "Error reloading config"
                   [("error", Slog.VError e)]
  | None => Slog.mkEntry Slog.Info "Config reloaded successfully" []
  end.

(** What [getCache] makes of the result of a constructor whose cache it
    wraps with [wrap]. *)
Definition constructed `{MapperPackages} {C : Type}
    (wrap : C -> MetricMapperCache)
    (made : Registerer * (C * option error))
    : Registerer * (option MetricMapperCache * option error) :=
  match snd (snd made) with
  | Some e => (fst made, (None, Some e))
  | None => (fst made, (Some (wrap (fst (snd made))), None))
  end.

(** A stand-in for the packages outside this development, to run the
    functions on examples: loading fails for one file name, and the
    constructors refuse a negative size. *)
#[local] Instance sample_packages : MapperPackages := {|
  MetricMapper := nat;
  InitFromFile := fun fileName m g lg =>
    if bool_decide (fileName = "missing.yml")
    then (m, g, lg, Some (External "no such file or directory"))
    else (3%nat, 3, lg, None);
  Registerer := list string;
  metricMapperLRUCache := Z;
  metricMapperRRCache := Z;
  NewMetricMapperLRUCache := fun reg size =>
    if size <? 0
    then (reg, (0, Some (External "must provide a positive size")))
    else ("lru" :: reg, (size, None));
  NewMetricMapperRRCache := fun reg size =>
    if size <? 0
    then (reg, (0, Some (External "must provide a positive size")))
    else ("random" :: reg, (size, None))
|}.

Definition no_metrics : Metrics :=
  mkMetrics ∅ 0%nat 0%nat 0%nat 0%nat 0%nat 0%nat 0%nat 0%nat 0%nat 0%nat
    ∅ 0%nat 0%nat ∅ 0 ∅ ∅ ∅ ∅.

Definition sample_process : Process := mkProcess no_metrics [].

End MainSpec.

(** ** More vocabulary: batches of lines, reloads on request *)

Module RelayBatch.
Import Go Relay RelaySpec.

(** The line is stopped by the second guard of [RelayLine]. *)
Definition too_long (r : Relay) (l : bytes) : bool :=
  let lineLength := to_uint (len l) in
  negb (lineLength =? 0) && (lineLength >? uint_sub (packetLength r) 1).

(** A listener passing the lines of a packet, one call each. *)
Definition RelayLines (ls : list bytes) (r : Relay) : Relay :=
  fold_left RelayLine ls r.

(** A queued line as [RelayLine] queues them: not empty, and a slice Go
    can hold. *)
Definition queued_line (b : bytes) : Prop := b <> [] /\ representable b.

(** A group of lines that makes one datagram for the packet length [pl]:
    not empty, and within [pl] unless it is one line alone. *)
Definition datagram_group (pl : Z) (g : list bytes) : Prop :=
  g <> [] /\ (len (concat g) <= pl \/ length g = 1%nat).

(** How the loop has cut the queue [chan0] into datagrams since the
    socket held [w0]: [groups] were written, one datagram each, and
    [rest] are the lines after them.  While the loop runs, [rest] is the
    lines in the buffer followed by those still queued, and the buffer is
    within the packet length unless it holds one line alone. *)
Definition batched (pl : Z) (chan0 w0 : list bytes) (s : Relay * Loop)
    (groups : list (list bytes)) (rest : list bytes) : Prop :=
  packetLength (fst s) = pl /\
  written (conn (fst s)) = w0 ++ map (@concat byte) groups /\
  chan0 = concat groups ++ rest /\
  Forall (datagram_group pl) groups /\
  (status (snd s) = Running ->
   exists cur : list bytes,
     buffer (snd s) = concat cur /\
     rest = cur ++ bufferChannel (fst s) /\
     representable (buffer (snd s)) /\
     (len (concat cur) <= pl \/ (length cur <= 1)%nat)).

(** The schedule that takes every queued line and then ticks. *)
Definition drain (r : Relay) : list SelectCase :=
  List.repeat Recv (length (bufferChannel r)) ++ [Tick].

End RelayBatch.

Module Lifecycle.
Import Go Main.

(** The signal the reloader asks to be notified of. *)
Inductive Signal : Type := SIGHUP.

(** [s.String()] *)
Definition Signal_String (s : Signal) : bytes :=
  match s with
  | SIGHUP => list_byte_of_string "hangup"
  end.

(** A call on the process logger. *)
Definition log (p : Process) (lv : Slog.Level) (m : string)
    (kv : list (string * Slog.Value)) : Process :=
  mkProcess (metrics p) (Slog.log (logger p) lv m kv).

(** What a handler did to its [http.ResponseWriter], oldest call first. *)
Inductive ResponseCall : Type :=
| WriteHeader (code : Z)
| Write (data : string).

Definition ResponseWriter : Type := list ResponseCall.

(** [fmt.Fprintf(w, s)] with a format without verbs. *)
Definition Fprintf (w : ResponseWriter) (s : string) : ResponseWriter :=
  w ++ [Write s].

Definition MethodPut : string := "PUT".
Definition MethodPost : string := "POST".

(** All reloads counted so far, whatever their outcome. *)
Definition reloads_total (m : Metrics) : nat :=
  (Prom.WithLabelValues (configLoads m) ["failure"]
   + Prom.WithLabelValues (configLoads m) ["success"])%nat.

Section Functions.
Context `{MapperPackages}.

(** The body of the loop of [sighupConfigReloader], for one signal taken
    from the channel. *)
Definition sighupConfigReloader_body (fileName : string)
    (st : MetricMapper * Process) (s : Signal) : MetricMapper * Process :=
  if bool_decide (fileName = "") then
    (fst st,
     log (snd st) Slog.Warn "Received signal but no mapping config to reload"
         [("signal", Slog.VString (Signal_String s))])
  else
    reloadConfig fileName (fst st)
      (log (snd st) Slog.Info "Received signal, attempting reload"
           [("signal", Slog.VString (Signal_String s))]).

(** [sighupConfigReloader] along the signals its channel delivers. *)
Definition sighupConfigReloader (fileName : string) (mapper : MetricMapper)
    (p : Process) (signals : list Signal) : MetricMapper * Process :=
  fold_left (sighupConfigReloader_body fileName) signals (mapper, p).

(** The handler [main] registers for [/-/reload], on a request with the
    given method. *)
Definition reloadHandler (mappingConfig : string) (method : string)
    (w : ResponseWriter) (thisMapper : MetricMapper) (p : Process)
    : ResponseWriter * (MetricMapper * Process) :=
  if bool_decide (method = MethodPut) || bool_decide (method = MethodPost)
  then
    let w1 := Fprintf w "Requesting reload" in
    if bool_decide (mappingConfig = "") then
      (w1,
       (thisMapper,
        log p Slog.Warn
            "Received lifecycle api reload but no mapping config to reload"
            []))
    else
      (w1,
       reloadConfig mappingConfig thisMapper
         (log p Slog.Info "Received lifecycle api reload, attempting reload"
              []))
  else (w, (thisMapper, p)).

End Functions.

End Lifecycle.

(** ** The channel with its capacity *)

Module BoundedChannel.
Import Go Relay RelaySpec.

(** [make(chan []byte, 100)] in [NewRelay]. *)
Definition capacity : nat := 100.

(** The statements of [RelayLine] before the send on the channel: the
    relay after them, and the value the call goes on to send, if it gets
    that far. *)
Definition RelayLine_before_send (r : Relay) (l : bytes)
    : Relay * option bytes :=
  let lineLength := to_uint (len l) in
  if lineLength =? 0 then
    (log r Slog.Debug "Empty line, not relaying" [], None)
  else if lineLength >? uint_sub (packetLength r) 1 then
    (inc_longLinesTotal
       (log r Slog.Warn "line too long, not relaying"
            [("length", Slog.VUint lineLength);
             ("max", Slog.VUint (packetLength r))]),
     None)
  else
    let r1 := log r Slog.Debug "Relaying line" [("line", Slog.VString l)] in
    let l' := if negb (HasSuffix l newline) then l ++ newline else l in
    (inc_relayedLinesTotal r1, Some l').

(** The relay, its loop, and the values of the calls of [RelayLine] that
    wait on the full channel, oldest first. *)
Record System : Type := mkSystem {
  relay : Relay;
  loop : Loop;
  waiting : list bytes
}.

(** [r.bufferChannel <- v]: with room in the channel the value is queued
    and the call returns; on a full channel the sender waits. *)
Definition send (s : System) (v : bytes) : System :=
  if (length (bufferChannel (relay s)) <? capacity)%nat then
    mkSystem (with_channel (relay s) (bufferChannel (relay s) ++ [v]))
             (loop s) (waiting s)
  else mkSystem (relay s) (loop s) (waiting s ++ [v]).

(** A receive that makes room lets the oldest waiting sender complete. *)
Definition settle (s : System) : System :=
  match waiting s with
  | [] => s
  | v :: ws =>
      if (length (bufferChannel (relay s)) <? capacity)%nat then
        mkSystem (with_channel (relay s) (bufferChannel (relay s) ++ [v]))
                 (loop s) ws
      else s
  end.

(** A listener calls [RelayLine], or the loop takes a turn. *)
Definition bounded_step (s : System) (e : Event) : System :=
  match e with
  | Call l =>
      match RelayLine_before_send (relay s) l with
      | (r1, Some v) => send (mkSystem r1 (loop s) (waiting s)) v
      | (r1, None) => mkSystem r1 (loop s) (waiting s)
      end
  | Turn c =>
      settle (mkSystem (fst (relayOutput_step c (relay s, loop s)))
                       (snd (relayOutput_step c (relay s, loop s)))
                       (waiting s))
  end.

Definition bounded_run (es : list Event) (s : System) : System :=
  fold_left bounded_step es s.

(** The lines the listeners passed, in the order of the calls. *)
Definition calls (es : list Event) : list bytes :=
  flat_map (fun e => match e with
                     | Call l => [l]
                     | Turn _ => []
                     end) es.

(** The channel holds the first [capacity] of the lines [all] and the
    senders wait with the others. *)
Definition filled (s : System) (all : list bytes) : Prop :=
  bufferChannel (relay s) = take capacity all /\
  waiting s = drop capacity all.

End BoundedChannel.

(** ** Facts on the Go primitives *)

Module GoFacts.
Import Go.

Lemma uint_modulus_eq : uint_modulus = 18446744073709551616.
Proof. reflexivity. Qed.

Lemma max_int_eq : max_int = 9223372036854775807.
Proof. reflexivity. Qed.

Lemma len_nonneg {A : Type} (s : list A) : 0 <= len s.
Proof. unfold len. lia. Qed.

Lemma len_app {A : Type} (s t : list A) : len (s ++ t) = len s + len t.
Proof. unfold len. rewrite length_app. lia. Qed.

Lemma len_nil_iff {A : Type} (s : list A) : len s = 0 <-> s = [].
Proof.
  unfold len. split.
  - destruct s; [reflexivity | simpl; lia].
  - intros ->. reflexivity.
Qed.

Lemma to_uint_id (z : Z) : is_uint z -> to_uint z = z.
Proof.
  unfold is_uint, to_uint, max_uint. intros Hz.
  apply Z.mod_small. lia.
Qed.

Lemma to_uint_range (z : Z) : is_uint (to_uint z).
Proof.
  unfold is_uint, to_uint, max_uint.
  pose proof (Z.mod_pos_bound z uint_modulus) as Hb.
  rewrite uint_modulus_eq in *. lia.
Qed.

Lemma to_uint_len {A : Type} (s : list A) :
  representable s -> to_uint (len s) = len s.
Proof.
  intros Hs. apply to_uint_id. unfold is_uint, max_uint.
  pose proof (len_nonneg s). unfold representable in Hs.
  rewrite uint_modulus_eq. rewrite max_int_eq in Hs. lia.
Qed.

(** Converting the wrapped [int] sum to [uint] gives the sum modulo
    2^64: the detour through [int] is not visible. *)
Lemma to_uint_int_add (a b : Z) : to_uint (int_add a b) = to_uint (a + b).
Proof.
  unfold to_uint, int_add, to_int.
  rewrite Zplus_mod_idemp_l.
  f_equal. lia.
Qed.

Lemma uint_sub_one_pos (p : Z) : 1 <= p <= max_uint -> uint_sub p 1 = p - 1.
Proof.
  intros Hp. unfold uint_sub. apply to_uint_id.
  unfold is_uint. lia.
Qed.

Lemma uint_sub_one_zero : uint_sub 0 1 = max_uint.
Proof. reflexivity. Qed.

Lemma representable_sum_no_wrap {A : Type} (s t : list A) :
  representable s -> representable t ->
  to_uint (int_add (len s) (len t)) = len s + len t.
Proof.
  intros Hs Ht. rewrite to_uint_int_add. apply to_uint_id.
  unfold is_uint, max_uint, representable in *.
  pose proof (len_nonneg s). pose proof (len_nonneg t).
  rewrite uint_modulus_eq. rewrite max_int_eq in *. lia.
Qed.

Lemma Buffer_Write_fits (buf p : bytes) :
  len buf + len p <= max_int -> Buffer_Write buf p = Some (buf ++ p).
Proof.
  intros H. unfold Buffer_Write.
  destruct (Z.leb_spec (len buf + len p) max_int); [reflexivity | lia].
Qed.

Lemma Buffer_Write_representable (buf p buf' : bytes) :
  Buffer_Write buf p = Some buf' ->
  buf' = buf ++ p /\ representable buf'.
Proof.
  unfold Buffer_Write, representable.
  destruct (Z.leb_spec (len buf + len p) max_int); [|discriminate].
  intros [= <-]. rewrite len_app. auto.
Qed.

(** [HasSuffix] with a one-byte suffix looks at the last byte. *)
Lemma HasSuffix_byte (s : bytes) (b : byte) :
  HasSuffix s [b] = true <-> last s = Some b.
Proof.
  unfold HasSuffix, len.
  destruct s as [|x s] using rev_ind.
  - simpl. split; discriminate.
  - rewrite last_snoc, length_app. simpl.
    replace (length s + 1 - 1)%nat with (length s) by lia.
    rewrite drop_app_length.
    rewrite andb_true_iff, bool_decide_eq_true, Z.leb_le.
    split.
    + intros [_ [= ->]]. reflexivity.
    + intros [= ->]. split; [lia | reflexivity].
Qed.

End GoFacts.

(** ** RelayLine *)

Module RelayLineFacts.
Import Go Relay RelaySpec GoFacts.

(** The newline [RelayLine] adds is the one [terminated] describes. *)
Lemma newline_added_when_absent (l : bytes) :
  (if negb (HasSuffix l newline) then l ++ newline else l) = terminated l.
Proof.
  unfold terminated, newline.
  destruct (HasSuffix l [x0a]) eqn:Hs; simpl.
  - apply HasSuffix_byte in Hs. rewrite Hs.
    rewrite bool_decide_eq_true_2; reflexivity.
  - destruct (last l) as [b|] eqn:Hl; [|reflexivity].
    destruct (bool_decide (b = x0a)) eqn:Hb; [|reflexivity].
    apply bool_decide_eq_true in Hb. subst b.
    apply HasSuffix_byte in Hl. unfold Go.bytes in *. congruence.
Qed.

Lemma terminated_ends_in_newline (l : bytes) : ends_in_newline (terminated l).
Proof.
  unfold ends_in_newline, terminated.
  destruct (last l) as [b|] eqn:Hl.
  - destruct (bool_decide (b = x0a)) eqn:Hb.
    + apply bool_decide_eq_true in Hb. congruence.
    + apply last_snoc.
  - apply last_snoc.
Qed.

Lemma terminated_when_present (l : bytes) :
  ends_in_newline l -> terminated l = l.
Proof.
  unfold ends_in_newline, terminated. intros ->.
  rewrite bool_decide_eq_true_2; reflexivity.
Qed.

Lemma terminated_when_absent (l : bytes) :
  ~ ends_in_newline l -> terminated l = l ++ [x0a].
Proof.
  unfold ends_in_newline, terminated. intros Hn.
  destruct (last l) as [b|]; [|reflexivity].
  destruct (bool_decide (b = x0a)) eqn:Hb; [|reflexivity].
  apply bool_decide_eq_true in Hb. subst b. contradiction.
Qed.

Lemma len_terminated (l : bytes) : len (terminated l) <= len l + 1.
Proof.
  unfold terminated.
  destruct (last l) as [b|]; [destruct (bool_decide (b = x0a))|];
    rewrite ?len_app; unfold len; simpl; lia.
Qed.

(** What [RelayLine] does with a line that passes both guards. *)
Lemma RelayLine_accepted (r : Relay) (l : bytes) :
  accepted r l = true ->
  RelayLine r l =
    with_channel
      (inc_relayedLinesTotal
         (log r Slog.Debug "Relaying line" [("line", Slog.VString l)]))
      (bufferChannel r ++ [terminated l]).
Proof.
  unfold accepted, RelayLine. cbv zeta.
  intros [H0 H1]%andb_true_iff.
  apply negb_true_iff in H0, H1. rewrite H0, H1.
  rewrite newline_added_when_absent. reflexivity.
Qed.

(** What [RelayLine] does with a line the second guard stops. *)
Lemma RelayLine_too_long (r : Relay) (l : bytes) :
  to_uint (len l) <> 0 ->
  to_uint (len l) > uint_sub (packetLength r) 1 ->
  RelayLine r l =
    inc_longLinesTotal
      (log r Slog.Warn "line too long, not relaying"
           [("length", Slog.VUint (to_uint (len l)));
            ("max", Slog.VUint (packetLength r))]).
Proof.
  intros H0 H1. unfold RelayLine. cbv zeta.
  destruct (Z.eqb_spec (to_uint (len l)) 0) as [|_]; [contradiction|].
  destruct (Z.gtb_spec (to_uint (len l)) (uint_sub (packetLength r) 1));
    [reflexivity | lia].
Qed.

(** For a line Go can hold, the guards compare its length itself. *)
Lemma accepted_iff (r : Relay) (l : bytes) :
  representable l ->
  accepted r l = true <->
  l <> [] /\ len l <= uint_sub (packetLength r) 1.
Proof.
  intros Hl. unfold accepted. cbv zeta. rewrite (to_uint_len l Hl).
  rewrite andb_true_iff, !negb_true_iff, Z.eqb_neq.
  rewrite len_nil_iff.
  destruct (Z.gtb_spec (len l) (uint_sub (packetLength r) 1));
    intuition (try lia; try discriminate).
Qed.

(** The bound [RelayLine] lets through: with a packet length of at least one,
    an accepted line is at most [packetLength] bytes once terminated. *)
Lemma accepted_within_bound (r : Relay) (l : bytes) :
  1 <= packetLength r <= max_uint ->
  representable (l ++ newline) ->
  accepted r l = true ->
  within_bound (packetLength r) (terminated l).
Proof.
  intros Hp Hr Ha.
  assert (Hl : representable l).
  { unfold representable in *. rewrite len_app in Hr.
    pose proof (len_nonneg newline). lia. }
  apply (accepted_iff r l Hl) in Ha as [_ Hb].
  rewrite (uint_sub_one_pos _ Hp) in Hb.
  pose proof (len_terminated l) as Ht.
  unfold within_bound, representable in *.
  rewrite len_app in Hr. change (len newline) with 1 in Hr. lia.
Qed.

(** The second guard with the bound the code computes.  A non-empty line
    longer than the unsigned difference [packetLength - 1] is discarded:
    nothing is queued and the long-lines counter goes up by one.  A
    non-empty line of at most that length leaves the long-lines counter
    alone and is queued.  For a packet length of at least one the
    unsigned difference is the integer [packetLength - 1]; for 0 it is
    not. *)
Theorem RelayLine_long_line_rule (r : Relay) (l : bytes) :
  l <> [] ->
  representable l ->
  let bound := uint_sub (packetLength r) 1 in
  let r' := RelayLine r l in
  (1 <= packetLength r <= max_uint -> bound = packetLength r - 1) /\
  (len l > bound ->
     bufferChannel r' = bufferChannel r /\
     conn r' = conn r /\
     longLinesTotal r' = S (longLinesTotal r) /\
     relayedLinesTotal r' = relayedLinesTotal r) /\
  (len l <= bound ->
     longLinesTotal r' = longLinesTotal r /\
     bufferChannel r' = bufferChannel r ++ [terminated l]).
Proof.
  intros Hne Hl bound r'. subst bound r'.
  split; [apply uint_sub_one_pos|]. split.
  - intros Hgt.
    rewrite RelayLine_too_long; rewrite ?(to_uint_len l Hl); auto.
    rewrite len_nil_iff. exact Hne.
  - intros Hle.
    rewrite RelayLine_accepted; [auto|].
    apply accepted_iff; auto.
Qed.

Lemma RelayLine_long_line_rule_witness :
  let r := sample_relay 6 reliable in
  (bufferChannel (RelayLine r gauge_line) = [] /\
   longLinesTotal (RelayLine r gauge_line) = 1%nat) /\
  (longLinesTotal (RelayLine r counter_line) = 0%nat /\
   bufferChannel (RelayLine r counter_line) = [terminated counter_line]).
Proof.
  intros r.
  assert (Hg : gauge_line <> []) by discriminate.
  assert (Hc : counter_line <> []) by discriminate.
  assert (Hrg : representable gauge_line) by (vm_compute; discriminate).
  assert (Hrc : representable counter_line) by (vm_compute; discriminate).
  destruct (RelayLine_long_line_rule r gauge_line Hg Hrg) as (_ & Hlong & _).
  destruct (RelayLine_long_line_rule r counter_line Hc Hrc) as (_ & _ & Hok).
  split.
  - destruct Hlong as (H1 & _ & H2 & _); [vm_compute; reflexivity|].
    split; [exact H1 | exact H2].
  - destruct Hok as (H1 & H2); [vm_compute; discriminate|].
    split; [exact H1 | exact H2].
Defined.

(** C2.  The code departs from the claim at a packet length of 0.  The
    line of 6 bytes is not empty and longer than [0 - 1]; the guard
    compares it with the unsigned [0 - 1], the largest [uint], so the
    line is not discarded: it is queued and counted as relayed, and the
    long-lines counter does not move. *)
Theorem RelayLine_zero_packetLength_keeps_long_line :
  let r := sample_relay 0 reliable in
  gauge_line <> [] /\
  len gauge_line = 6 /\
  len gauge_line > packetLength r - 1 /\
  uint_sub (packetLength r) 1 = max_uint /\
  bufferChannel (RelayLine r gauge_line) = [terminated gauge_line] /\
  longLinesTotal (RelayLine r gauge_line) = longLinesTotal r /\
  relayedLinesTotal (RelayLine r gauge_line) = S (relayedLinesTotal r).
Proof.
  cbv zeta.
  split; [discriminate|].
  split; [reflexivity|].
  split; [vm_compute; reflexivity|].
  split; [apply uint_sub_one_zero|].
  rewrite RelayLine_accepted by (vm_compute; reflexivity).
  repeat split.
Qed.

(** C3.  What [RelayLine] queues for an accepted line is the line itself
    when it ends in a newline and the line followed by one newline when it
    does not; what is queued ends in a newline. *)
Theorem RelayLine_enqueues_terminated (r : Relay) (l : bytes) :
  accepted r l = true ->
  exists l' : bytes,
    bufferChannel (RelayLine r l) = bufferChannel r ++ [l'] /\
    (ends_in_newline l -> l' = l) /\
    (~ ends_in_newline l -> l' = l ++ [x0a]) /\
    ends_in_newline l'.
Proof.
  intros Ha. exists (terminated l).
  rewrite (RelayLine_accepted r l Ha).
  split; [reflexivity|].
  split; [apply terminated_when_present|].
  split; [apply terminated_when_absent | apply terminated_ends_in_newline].
Qed.

Lemma RelayLine_enqueues_terminated_witness :
  exists l' : bytes,
    bufferChannel (RelayLine (sample_relay 1400 reliable) counter_line)
      = [] ++ [l'] /\
    (ends_in_newline counter_line -> l' = counter_line) /\
    (~ ends_in_newline counter_line -> l' = counter_line ++ [x0a]) /\
    ends_in_newline l'.
Proof.
  apply (RelayLine_enqueues_terminated (sample_relay 1400 reliable)
           counter_line).
  vm_compute. reflexivity.
Defined.

(** C9.  With a packet length of 0 the bound [packetLength - 1] is the
    largest [uint]: no line is stopped as too long, whatever its length,
    and every non-empty line is queued. *)
Theorem zero_packetLength_rejects_no_line (r : Relay) (l : bytes) :
  packetLength r = 0 ->
  uint_sub (packetLength r) 1 = max_uint /\
  longLinesTotal (RelayLine r l) = longLinesTotal r /\
  (l <> [] -> representable l ->
   bufferChannel (RelayLine r l) = bufferChannel r ++ [terminated l]).
Proof.
  intros Hp. rewrite Hp.
  split; [apply uint_sub_one_zero|].
  assert (Hle : (to_uint (len l) >? uint_sub 0 1) = false).
  { rewrite uint_sub_one_zero.
    pose proof (to_uint_range (len l)) as Hr. unfold is_uint in Hr.
    destruct (Z.gtb_spec (to_uint (len l)) max_uint); [lia | reflexivity]. }
  split.
  - unfold RelayLine. cbv zeta. rewrite Hp, Hle.
    destruct (to_uint (len l) =? 0); reflexivity.
  - intros Hne Hl. rewrite RelayLine_accepted; [reflexivity|].
    apply accepted_iff; [exact Hl|]. rewrite Hp.
    split; [exact Hne|].
    rewrite <- (to_uint_len l Hl).
    destruct (Z.gtb_spec (to_uint (len l)) (uint_sub 0 1));
      [discriminate | lia].
Qed.

Lemma zero_packetLength_rejects_no_line_witness :
  let r := sample_relay 0 reliable in
  uint_sub (packetLength r) 1 = max_uint /\
  longLinesTotal (RelayLine r gauge_line) = longLinesTotal r /\
  (gauge_line <> [] -> representable gauge_line ->
   bufferChannel (RelayLine r gauge_line)
     = bufferChannel r ++ [terminated gauge_line]).
Proof.
  intros r.
  apply (zero_packetLength_rejects_no_line r gauge_line).
  reflexivity.
Defined.

(** C10.  [RelayLine] on the empty string changes no counter, queues
    nothing and writes nothing; it hands one debug record to the
    logger. *)
Theorem RelayLine_empty_is_noop (r : Relay) :
  let r' := RelayLine r [] in
  longLinesTotal r' = longLinesTotal r /\
  relayedLinesTotal r' = relayedLinesTotal r /\
  packetsTotal r' = packetsTotal r /\
  bufferChannel r' = bufferChannel r /\
  conn r' = conn r /\
  packetLength r' = packetLength r /\
  logger r' =
    logger r ++ [Slog.mkEntry Slog.Debug "Empty line, not relaying" []].
Proof. cbv zeta. unfold RelayLine. simpl. repeat split. Qed.

End RelayLineFacts.

(** ** The flush loop *)

Module FlushFacts.
Import Go Relay RelaySpec GoFacts RelayLineFacts.

(** *** sendPacket *)

Lemma sendPacket_empty (r : Relay) :
  sendPacket r [] =
    (log r Slog.Debug "Empty buffer, nothing to send" [], None).
Proof. reflexivity. Qed.

Lemma sendPacket_nonempty (r : Relay) (buf : bytes) :
  buf <> [] ->
  sendPacket r buf =
    (inc_packetsTotal
       (with_conn
          (log r Slog.Debug "Sending packet"
               [("length", Slog.VInt (len buf));
                ("data", Slog.VString buf)])
          (mkConn (written (conn r) ++ [buf]) (outcome (conn r)))),
     next_write r).
Proof.
  intros Hne. unfold sendPacket.
  destruct (Z.eqb_spec (len buf) 0) as [H0|_].
  - apply len_nil_iff in H0. contradiction.
  - reflexivity.
Qed.

Lemma sendPacket_written (r : Relay) (buf : bytes) :
  written (conn (fst (sendPacket r buf)))
    = written (conn r) ++ datagram_of buf.
Proof.
  destruct buf as [|x buf].
  - rewrite sendPacket_empty. simpl. rewrite app_nil_r. reflexivity.
  - rewrite sendPacket_nonempty by discriminate. reflexivity.
Qed.

Lemma sendPacket_frame (r : Relay) (buf : bytes) :
  bufferChannel (fst (sendPacket r buf)) = bufferChannel r /\
  packetLength (fst (sendPacket r buf)) = packetLength r /\
  outcome (conn (fst (sendPacket r buf))) = outcome (conn r) /\
  longLinesTotal (fst (sendPacket r buf)) = longLinesTotal r /\
  relayedLinesTotal (fst (sendPacket r buf)) = relayedLinesTotal r.
Proof.
  destruct buf as [|x buf].
  - rewrite sendPacket_empty. simpl. auto.
  - rewrite sendPacket_nonempty by discriminate. simpl. auto.
Qed.

Lemma sendPacket_error (r : Relay) (buf : bytes) :
  snd (sendPacket r buf) =
    match buf with
    | [] => None
    | _ => next_write r
    end.
Proof.
  destruct buf as [|x buf].
  - reflexivity.
  - rewrite sendPacket_nonempty by discriminate. reflexivity.
Qed.

(** The error of a send depends on the socket alone. *)
Lemma sendPacket_error_conn (r r' : Relay) (buf : bytes) :
  conn r' = conn r ->
  snd (sendPacket r' buf) = snd (sendPacket r buf).
Proof.
  intros Hc. rewrite !sendPacket_error. unfold next_write.
  rewrite Hc. reflexivity.
Qed.

(** *** One turn of the loop *)

Lemma over_capacity_iff (r : Relay) (buf b : bytes) :
  representable buf -> representable b ->
  over_capacity r buf b = true <-> len buf + len b > packetLength r.
Proof.
  intros Hbuf Hb. unfold over_capacity.
  rewrite (representable_sum_no_wrap b buf Hb Hbuf).
  destruct (Z.gtb_spec (len b + len buf) (packetLength r));
    split; intros; try lia; try discriminate; reflexivity.
Qed.

Lemma step_stopped (c : SelectCase) (s : Relay * Loop) :
  status (snd s) <> Running -> relayOutput_step c s = s.
Proof.
  unfold relayOutput_step. destruct (status (snd s)); congruence.
Qed.

Lemma run_stopped (sched : list SelectCase) (s : Relay * Loop) :
  status (snd s) <> Running -> relayOutput sched s = s.
Proof.
  revert s. induction sched as [|c sched IH]; intros s Hs.
  - reflexivity.
  - simpl. rewrite (step_stopped c s Hs). apply IH, Hs.
Qed.

Lemma step_tick (r : Relay) (st : Loop) :
  status st = Running ->
  relayOutput_step Tick (r, st) =
    match snd (sendPacket r (buffer st)) with
    | Some e =>
        (log (fst (sendPacket r (buffer st))) Slog.Error
             "Error sending UDP packet" [("error", Slog.VError e)],
         mkLoop (buffer st) Returned)
    | None => (fst (sendPacket r (buffer st)), mkLoop [] Running)
    end.
Proof.
  intros Hs. unfold relayOutput_step. simpl. rewrite Hs. simpl.
  destruct (sendPacket r (buffer st)) as [r1 [e|]]; reflexivity.
Qed.

Lemma step_recv_blocked (r : Relay) (st : Loop) :
  bufferChannel r = [] -> relayOutput_step Recv (r, st) = (r, st).
Proof.
  intros Hc. unfold relayOutput_step. simpl.
  destruct (status st); try reflexivity.
  simpl. rewrite Hc. reflexivity.
Qed.

Lemma step_recv_append (r : Relay) (st : Loop) (b : bytes)
    (rest : list bytes) :
  status st = Running ->
  bufferChannel r = b :: rest ->
  over_capacity r (buffer st) b = false ->
  relayOutput_step Recv (r, st) =
    write (log (with_channel r rest) Slog.Debug "Adding line to buffer"
               [("line", Slog.VString b)])
          (buffer st) b.
Proof.
  intros Hs Hc Ho. unfold relayOutput_step. simpl. rewrite Hs. simpl.
  rewrite Hc.
  change (over_capacity (with_channel r rest) (buffer st) b)
    with (over_capacity r (buffer st) b).
  rewrite Ho. reflexivity.
Qed.

Lemma step_recv_flush (r : Relay) (st : Loop) (b : bytes)
    (rest : list bytes) :
  status st = Running ->
  bufferChannel r = b :: rest ->
  over_capacity r (buffer st) b = true ->
  relayOutput_step Recv (r, st) =
    match snd (sendPacket (before_flush r st rest) (buffer st)) with
    | Some e =>
        (log (fst (sendPacket (before_flush r st rest) (buffer st)))
             Slog.Error "Error sending UDP packet"
             [("error", Slog.VError e)],
         mkLoop (buffer st) Returned)
    | None =>
        write (fst (sendPacket (before_flush r st rest) (buffer st))) [] b
    end.
Proof.
  intros Hs Hc Ho. unfold relayOutput_step. simpl. rewrite Hs. simpl.
  rewrite Hc.
  change (over_capacity (with_channel r rest) (buffer st) b)
    with (over_capacity r (buffer st) b).
  rewrite Ho. unfold before_flush.
  destruct (sendPacket _ (buffer st)) as [r2 [e|]]; reflexivity.
Qed.

Lemma write_fits (r : Relay) (buf b : bytes) :
  len buf + len b <= max_int ->
  write r buf b = (r, mkLoop (buf ++ b) Running).
Proof.
  intros H. unfold write. rewrite Buffer_Write_fits by exact H.
  reflexivity.
Qed.

Lemma write_cases (r : Relay) (buf b : bytes) :
  write r buf b = (r, mkLoop (buf ++ b) Running) /\
    representable (buf ++ b)
  \/ write r buf b = (r, mkLoop buf Panicked).
Proof.
  unfold write. destruct (Buffer_Write buf b) as [buf'|] eqn:Hw.
  - apply Buffer_Write_representable in Hw as [-> Hr]. left. auto.
  - right. reflexivity.
Qed.

(** *** When the buffer is sent *)

(** C1, as stated, fails.  A tick on an empty buffer emits nothing.  With
    a packet length of 0 the first line exceeds the capacity of the empty
    buffer, and nothing is emitted either.  When the send fails the
    buffer is neither re-seeded with the line nor cleared: the loop has
    returned. *)
Lemma flush_rule_counterexample :
  written (conn (fst (relayOutput_step Tick
                        (sample_relay 1400 reliable, start)))) = []
  /\ (let r := RelayLine (sample_relay 0 reliable) counter_line in
      bufferChannel r = [terminated counter_line] /\
      over_capacity r (buffer start) (terminated counter_line) = true /\
      written (conn (fst (relayOutput_step Recv (r, start)))) = [])
  /\ (let r := RelayLine (RelayLine (sample_relay 8 unreachable)
                                    counter_line) gauge_line in
      let s := relayOutput_step Recv (r, start) in
      bufferChannel (fst s) = [terminated gauge_line] /\
      snd s = mkLoop (terminated counter_line) Running /\
      over_capacity (fst s) (buffer (snd s)) (terminated gauge_line)
        = true /\
      snd (relayOutput_step Recv s)
        = mkLoop (terminated counter_line) Returned /\
      snd (relayOutput_step Tick s)
        = mkLoop (terminated counter_line) Returned).
Proof. vm_compute. repeat split. Qed.

(** C1, amended.  When a line is received, the buffer is handed to the
    socket as one datagram exactly when it is not empty and appending the
    line would exceed the packet length.  When appending would exceed it
    and the send did not fail, the buffer is then the line alone; when
    appending would not exceed it, nothing is sent and the line is
    appended.  On a tick a buffer that is not empty is handed to the
    socket as one datagram, and unless that send fails the buffer is
    then empty. *)
Theorem flush_rule (r : Relay) (st : Loop) :
  status st = Running ->
  representable (buffer st) ->
  let buf := buffer st in
  (forall (b : bytes) (rest : list bytes),
     bufferChannel r = b :: rest ->
     representable b ->
     let s' := relayOutput_step Recv (r, st) in
     bufferChannel (fst s') = rest /\
     (len buf + len b > packetLength r -> buf <> [] ->
      written (conn (fst s')) = written (conn r) ++ [buf]) /\
     (len buf + len b <= packetLength r \/ buf = [] ->
      written (conn (fst s')) = written (conn r)) /\
     (len buf + len b > packetLength r ->
      buf = [] \/ next_write r = None ->
      snd s' = mkLoop b Running) /\
     (len buf + len b <= packetLength r ->
      len buf + len b <= max_int ->
      snd s' = mkLoop (buf ++ b) Running))
  /\ (let s' := relayOutput_step Tick (r, st) in
      bufferChannel (fst s') = bufferChannel r /\
      (buf <> [] -> written (conn (fst s')) = written (conn r) ++ [buf]) /\
      (buf = [] -> written (conn (fst s')) = written (conn r)) /\
      (buf = [] \/ next_write r = None -> snd s' = mkLoop [] Running)).
Proof.
  intros Hs Hbuf buf. subst buf. split.
  - intros b rest Hc Hb s'. subst s'.
    pose proof (over_capacity_iff r (buffer st) b Hbuf Hb) as Hover.
    destruct (over_capacity r (buffer st) b) eqn:Ho.
    + (* the capacity path *)
      assert (Hgt : len (buffer st) + len b > packetLength r)
        by (apply Hover; reflexivity).
      rewrite (step_recv_flush r st b rest Hs Hc Ho).
      pose proof (sendPacket_written (before_flush r st rest) (buffer st))
        as Hw.
      pose proof (sendPacket_frame (before_flush r st rest) (buffer st))
        as (Hch & _).
      pose proof (sendPacket_error (before_flush r st rest) (buffer st))
        as He.
      change (next_write (before_flush r st rest)) with (next_write r) in He.
      assert (Hfits : len (@nil byte) + len b <= max_int)
        by (unfold representable in Hb; simpl; exact Hb).
      destruct (snd (sendPacket (before_flush r st rest) (buffer st)))
        as [e|] eqn:Herr.
      * simpl. rewrite Hw, Hch. simpl.
        split; [reflexivity|].
        split; [intros _ Hne; destruct (buffer st);
              [contradiction | reflexivity]|].
        split; [intros [Hle | ->]; [lia | simpl; apply app_nil_r]|].
        split; [|intros; lia].
        intros _ [Hnil | Hnone].
        -- rewrite Hnil in He. discriminate.
        -- destruct (buffer st); congruence.
      * rewrite (write_fits _ [] b Hfits). simpl. rewrite Hw, Hch. simpl.
        split; [reflexivity|].
        split; [intros _ Hne; destruct (buffer st);
              [contradiction | reflexivity]|].
        split; [intros [Hle | ->]; [lia | simpl; apply app_nil_r]|].
        split; [reflexivity | intros; lia].
    + (* the line is appended *)
      assert (Hle : len (buffer st) + len b <= packetLength r).
      { destruct (Z.le_gt_cases (len (buffer st) + len b) (packetLength r))
          as [H|H]; [exact H|].
        assert (Hf : false = true) by (apply Hover; lia).
        discriminate Hf. }
      rewrite (step_recv_append r st b rest Hs Hc Ho).
      unfold write.
      split; [destruct (Buffer_Write (buffer st) b); reflexivity|].
      split; [intros; lia|].
      split; [intros _; destruct (Buffer_Write (buffer st) b); reflexivity|].
      split; [intros; lia|].
      intros _ Hfits. rewrite (Buffer_Write_fits _ _ Hfits). reflexivity.
  - intros s'. subst s'. rewrite (step_tick r st Hs).
    pose proof (sendPacket_written r (buffer st)) as Hw.
    pose proof (sendPacket_frame r (buffer st)) as (Hch & _).
    pose proof (sendPacket_error r (buffer st)) as He.
    destruct (snd (sendPacket r (buffer st))) as [e|] eqn:Herr;
      simpl; rewrite Hw, Hch.
    + split; [reflexivity|].
      split; [intros Hne; destruct (buffer st); [contradiction | reflexivity]|].
      split; [intros ->; simpl; apply app_nil_r|].
      intros [Hnil | Hnone].
      * rewrite Hnil in He. discriminate.
      * destruct (buffer st); congruence.
    + split; [reflexivity|].
      split; [intros Hne; destruct (buffer st); [contradiction | reflexivity]|].
      split; [intros ->; simpl; apply app_nil_r | reflexivity].
Qed.

Lemma flush_rule_witness :
  let r := with_channel (sample_relay 8 reliable) [terminated gauge_line] in
  let st := mkLoop (terminated counter_line) Running in
  written (conn (fst (relayOutput_step Recv (r, st))))
    = [terminated counter_line]
  /\ snd (relayOutput_step Recv (r, st))
     = mkLoop (terminated gauge_line) Running
  /\ snd (relayOutput_step Tick (r, st)) = mkLoop [] Running.
Proof.
  intros r st.
  assert (Hst : representable (buffer st)) by (vm_compute; discriminate).
  assert (Hb : representable (terminated gauge_line))
    by (vm_compute; discriminate).
  destruct (flush_rule r st eq_refl Hst) as [Hrecv Htick].
  destruct (Hrecv (terminated gauge_line) [] eq_refl Hb)
    as (_ & Hsent & _ & Hseed & _).
  destruct Htick as (_ & _ & _ & Hclear).
  split; [|split].
  - apply Hsent; [vm_compute; reflexivity | discriminate].
  - apply Hseed; [vm_compute; reflexivity | right; reflexivity].
  - apply Hclear. right. reflexivity.
Defined.

(** *** A failed send *)

(** C5.  When the send of this turn returns an error, on the tick path
    as on the capacity path, the loop hands the error to the logger and
    returns: whatever the schedule then offers, no line is taken from the
    queue and nothing is written. *)
Theorem send_error_ends_loop (c : SelectCase) (r : Relay) (st : Loop)
    (e : error) :
  status st = Running ->
  sends c r st = true ->
  snd (sendPacket r (buffer st)) = Some e ->
  let s' := relayOutput_step c (r, st) in
  status (snd s') = Returned /\
  last (logger (fst s'))
    = Some (Slog.mkEntry Slog.Error "Error sending UDP packet"
              [("error", Slog.VError e)]) /\
  (forall sched : list SelectCase, relayOutput sched s' = s').
Proof.
  intros Hs Hsends Herr s'.
  assert (Hshape : exists r',
    s' = (log r' Slog.Error "Error sending UDP packet"
              [("error", Slog.VError e)],
          mkLoop (buffer st) Returned)).
  { subst s'. destruct c.
    - rewrite (step_tick r st Hs), Herr. eauto.
    - simpl in Hsends.
      destruct (bufferChannel r) as [|b rest] eqn:Hc; [discriminate|].
      rewrite (step_recv_flush r st b rest Hs Hc Hsends).
      rewrite (sendPacket_error_conn r (before_flush r st rest))
        by reflexivity.
      rewrite Herr. eauto. }
  destruct Hshape as [r' ->]. simpl.
  split; [reflexivity|].
  split; [apply last_snoc|].
  intros sched. apply run_stopped. simpl. discriminate.
Qed.

Lemma send_error_ends_loop_witness :
  let r := with_channel (sample_relay 8 unreachable)
                        [terminated gauge_line] in
  let st := mkLoop (terminated counter_line) Running in
  let e := External "write: connection refused" in
  (status (snd (relayOutput_step Tick (r, st))) = Returned /\
   last (logger (fst (relayOutput_step Tick (r, st))))
     = Some (Slog.mkEntry Slog.Error "Error sending UDP packet"
               [("error", Slog.VError e)]) /\
   (forall sched : list SelectCase,
      relayOutput sched (relayOutput_step Tick (r, st))
        = relayOutput_step Tick (r, st)))
  /\ (status (snd (relayOutput_step Recv (r, st))) = Returned /\
      last (logger (fst (relayOutput_step Recv (r, st))))
        = Some (Slog.mkEntry Slog.Error "Error sending UDP packet"
                  [("error", Slog.VError e)]) /\
      (forall sched : list SelectCase,
         relayOutput sched (relayOutput_step Recv (r, st))
           = relayOutput_step Recv (r, st))).
Proof.
  intros r st e. split.
  - apply (send_error_ends_loop Tick r st e); reflexivity.
  - apply (send_error_ends_loop Recv r st e); reflexivity.
Defined.

(** *** The bytes relayed *)

Lemma concat_datagram_of (buf : bytes) : concat (datagram_of buf) = buf.
Proof. destruct buf; simpl; rewrite ?app_nil_r; reflexivity. Qed.

Lemma status_dec (st : Loop) :
  {status st = Running} + {status st <> Running}.
Proof. destruct (status st); [left | right | right]; congruence. Qed.

(** A turn that leaves the loop running moves bytes from the queue to
    the buffer or from the buffer to the socket, and changes none. *)
Lemma step_stream (c : SelectCase) (s : Relay * Loop) :
  status (snd (relayOutput_step c s)) = Running ->
  stream (relayOutput_step c s) = stream s.
Proof.
  destruct s as [r st].
  destruct (status_dec st) as [Hs|Hs];
    [|rewrite (step_stopped c (r, st) Hs); reflexivity].
  destruct c.
  - rewrite (step_tick r st Hs).
    pose proof (sendPacket_written r (buffer st)) as Hw.
    pose proof (sendPacket_frame r (buffer st)) as (Hch & _).
    destruct (snd (sendPacket r (buffer st))); [discriminate|].
    intros _. unfold stream. simpl. rewrite Hw, Hch.
    rewrite concat_app, concat_datagram_of, <- app_assoc. reflexivity.
  - destruct (bufferChannel r) as [|b rest] eqn:Hc;
      [rewrite (step_recv_blocked r st Hc); reflexivity|].
    destruct (over_capacity r (buffer st) b) eqn:Ho.
    + rewrite (step_recv_flush r st b rest Hs Hc Ho).
      pose proof (sendPacket_written (before_flush r st rest) (buffer st))
        as Hw.
      pose proof (sendPacket_frame (before_flush r st rest) (buffer st))
        as (Hch & _).
      destruct (snd (sendPacket (before_flush r st rest) (buffer st)));
        [discriminate|].
      destruct (write_cases (fst (sendPacket (before_flush r st rest)
                                    (buffer st))) [] b)
        as [[-> _] | ->]; [|discriminate].
      intros _. unfold stream. simpl. rewrite Hw, Hch, Hc. simpl.
      rewrite concat_app, concat_datagram_of, <- !app_assoc. reflexivity.
    + rewrite (step_recv_append r st b rest Hs Hc Ho).
      destruct (write_cases
                  (log (with_channel r rest) Slog.Debug
                       "Adding line to buffer" [("line", Slog.VString b)])
                  (buffer st) b)
        as [[-> _] | ->]; [|discriminate].
      intros _. unfold stream. simpl. rewrite Hc. simpl.
      rewrite <- !app_assoc. reflexivity.
Qed.

Lemma run_stream (sched : list SelectCase) (s : Relay * Loop) :
  status (snd (relayOutput sched s)) = Running ->
  stream (relayOutput sched s) = stream s.
Proof.
  revert s. induction sched as [|c sched IH]; intros s Hrun.
  - reflexivity.
  - change (relayOutput (c :: sched) s)
      with (relayOutput sched (relayOutput_step c s)) in *.
    destruct (status_dec (snd (relayOutput_step c s))) as [Hs|Hs].
    + rewrite (IH _ Hrun). apply step_stream, Hs.
    + rewrite (run_stopped sched _ Hs) in Hrun. contradiction.
Qed.

(** C4, as stated, fails: a line without a newline reaches the target
    with a newline added. *)
Lemma relayed_bytes_counterexample :
  let r := RelayLine (sample_relay 1400 reliable) counter_line in
  accepted (sample_relay 1400 reliable) counter_line = true /\
  bufferChannel r = [counter_line ++ [x0a]] /\
  written (conn (fst (relayOutput [Recv; Tick] (r, start))))
    = [counter_line ++ [x0a]] /\
  counter_line ++ [x0a] <> counter_line.
Proof. vm_compute. repeat split. discriminate. Qed.

(** C4, amended.  What is relayed for an accepted line is the line, byte
    for byte, followed by one newline when the line does not end in one.
    While the flush loop runs it moves the queued bytes to the socket in
    order and adds, drops and changes none. *)
Theorem relayed_bytes (r : Relay) (l : bytes) (st : Loop)
    (sched : list SelectCase) :
  accepted r l = true ->
  let r1 := RelayLine r l in
  let s' := relayOutput sched (r1, st) in
  bufferChannel r1 = bufferChannel r ++ [terminated l] /\
  (ends_in_newline l -> terminated l = l) /\
  (~ ends_in_newline l -> terminated l = l ++ [x0a]) /\
  conn r1 = conn r /\
  (status (snd s') = Running -> stream s' = stream (r, st) ++ terminated l).
Proof.
  intros Ha r1 s'. subst r1 s'.
  rewrite (RelayLine_accepted r l Ha).
  split; [reflexivity|].
  split; [apply terminated_when_present|].
  split; [apply terminated_when_absent|].
  split; [reflexivity|].
  intros Hrun. rewrite (run_stream _ _ Hrun).
  unfold stream. simpl.
  rewrite concat_app. simpl. rewrite app_nil_r, <- !app_assoc. reflexivity.
Qed.

Lemma relayed_bytes_witness :
  let r := sample_relay 1400 reliable in
  let s' := relayOutput [Recv; Tick] (RelayLine r counter_line, start) in
  bufferChannel (RelayLine r counter_line)
    = bufferChannel r ++ [terminated counter_line] /\
  (ends_in_newline counter_line -> terminated counter_line = counter_line) /\
  (~ ends_in_newline counter_line ->
   terminated counter_line = counter_line ++ [x0a]) /\
  conn (RelayLine r counter_line) = conn r /\
  (status (snd s') = Running ->
   stream s' = stream (r, start) ++ terminated counter_line).
Proof.
  intros r s'.
  apply (relayed_bytes r counter_line start [Recv; Tick]).
  vm_compute. reflexivity.
Defined.

(** *** The size of the datagrams *)

Lemma within_bound_nil (pl : Z) : 0 <= pl -> within_bound pl [].
Proof.
  intros Hp. unfold within_bound, representable, len. simpl.
  rewrite max_int_eq. lia.
Qed.

(** A buffer within the bound gives a well sized datagram or none. *)
Lemma datagram_of_well_sized (pl : Z) (buf : bytes) :
  within_bound pl buf -> Forall (well_sized pl) (datagram_of buf).
Proof.
  intros [Hlen _]. destruct buf as [|x buf]; simpl.
  - constructor.
  - constructor; [|constructor].
    unfold well_sized. split; [|exact Hlen].
    unfold len. simpl. lia.
Qed.

Lemma sendPacket_never_empty (r : Relay) (buf : bytes) :
  exists new : list bytes,
    written (conn (fst (sendPacket r buf))) = written (conn r) ++ new /\
    Forall (fun d => d <> []) new.
Proof.
  exists (datagram_of buf). split; [apply sendPacket_written|].
  destruct buf; simpl; repeat constructor. discriminate.
Qed.

Lemma RelayLine_frame (r : Relay) (l : bytes) :
  packetLength (RelayLine r l) = packetLength r /\
  conn (RelayLine r l) = conn r /\
  bufferChannel (RelayLine r l) =
    bufferChannel r ++ (if accepted r l then [terminated l] else []).
Proof.
  destruct (accepted r l) eqn:Ha.
  - rewrite (RelayLine_accepted r l Ha). simpl. auto.
  - unfold accepted in Ha. unfold RelayLine. cbv zeta in *.
    destruct (to_uint (len l) =? 0); simpl in *;
      [rewrite app_nil_r; auto|].
    destruct (to_uint (len l) >? uint_sub (packetLength r) 1);
      simpl in *; [rewrite app_nil_r; auto | discriminate].
Qed.

Lemma invariant_written_app (pl : Z) (w0 w new : list bytes) :
  (exists old : list bytes, w = w0 ++ old /\ Forall (well_sized pl) old) ->
  Forall (well_sized pl) new ->
  exists all : list bytes,
    w ++ new = w0 ++ all /\ Forall (well_sized pl) all.
Proof.
  intros (old & -> & Hold) Hnew. exists (old ++ new).
  rewrite app_assoc. split; [reflexivity|].
  apply Forall_app. auto.
Qed.

Lemma invariant_intro (pl : Z) (w0 : list bytes) (r : Relay) (st : Loop) :
  packetLength r = pl ->
  (exists new : list bytes,
      written (conn r) = w0 ++ new /\ Forall (well_sized pl) new) ->
  Forall (within_bound pl) (bufferChannel r) ->
  within_bound pl (buffer st) ->
  flush_invariant pl w0 (r, st).
Proof. unfold flush_invariant. simpl. auto. Qed.

Lemma within_bound_nonneg (pl : Z) (b : bytes) : within_bound pl b -> 0 <= pl.
Proof. intros [Hlen _]. pose proof (len_nonneg b). lia. Qed.

Lemma turn_preserves_invariant (pl : Z) (w0 : list bytes)
    (c : SelectCase) (s : Relay * Loop) :
  flush_invariant pl w0 s ->
  flush_invariant pl w0 (relayOutput_step c s).
Proof.
  destruct s as [r st]. intros Hinv.
  destruct (status_dec st) as [Hs|Hs];
    [|rewrite (step_stopped c (r, st) Hs); exact Hinv].
  destruct Hinv as (Hpl & Hw & Hq & Hbuf). simpl in Hpl, Hw, Hq, Hbuf.
  pose proof (within_bound_nonneg pl _ Hbuf) as Hpos.
  destruct c.
  - (* tick *)
    rewrite (step_tick r st Hs).
    pose proof (sendPacket_written r (buffer st)) as Hsw.
    pose proof (sendPacket_frame r (buffer st)) as (Hch & Hp & _).
    assert (Hw' : exists all : list bytes,
               written (conn (fst (sendPacket r (buffer st)))) = w0 ++ all
               /\ Forall (well_sized pl) all).
    { rewrite Hsw. apply invariant_written_app; [exact Hw|].
      apply datagram_of_well_sized, Hbuf. }
    destruct (snd (sendPacket r (buffer st)));
      apply invariant_intro; simpl;
      try congruence; try assumption.
    apply within_bound_nil, Hpos.
  - (* a line is received *)
    destruct (bufferChannel r) as [|b rest] eqn:Hc.
    { rewrite (step_recv_blocked r st Hc).
      apply invariant_intro; try assumption.
      rewrite Hc. constructor. }
    apply Forall_cons in Hq as [Hb Hrest].
    destruct (over_capacity r (buffer st) b) eqn:Ho.
    + rewrite (step_recv_flush r st b rest Hs Hc Ho).
      pose proof (sendPacket_written (before_flush r st rest) (buffer st))
        as Hsw.
      pose proof (sendPacket_frame (before_flush r st rest) (buffer st))
        as (Hch & Hp & _).
      simpl in Hsw, Hch, Hp.
      assert (Hw' : exists all : list bytes,
                 written (conn (fst (sendPacket (before_flush r st rest)
                                       (buffer st)))) = w0 ++ all
                 /\ Forall (well_sized pl) all).
      { rewrite Hsw. apply invariant_written_app; [exact Hw|].
        apply datagram_of_well_sized, Hbuf. }
      destruct (snd (sendPacket (before_flush r st rest) (buffer st))).
      * apply invariant_intro; simpl; try congruence; try assumption.
      * destruct (write_cases
                    (fst (sendPacket (before_flush r st rest) (buffer st)))
                    [] b) as [[-> _] | ->];
          apply invariant_intro; simpl; try congruence; try assumption.
        apply within_bound_nil, Hpos.
    + rewrite (step_recv_append r st b rest Hs Hc Ho).
      assert (Hle : len (buffer st) + len b <= pl).
      { destruct Hbuf as [_ Hrb]. destruct Hb as [_ Hrl].
        pose proof (over_capacity_iff r (buffer st) b Hrb Hrl) as Hover.
        rewrite Ho in Hover. rewrite <- Hpl.
        destruct (Z.le_gt_cases (len (buffer st) + len b) (packetLength r))
          as [H|H]; [exact H|].
        assert (Hf : false = true) by (apply Hover; lia).
        discriminate Hf. }
      destruct (write_cases
                  (log (with_channel r rest) Slog.Debug
                       "Adding line to buffer" [("line", Slog.VString b)])
                  (buffer st) b) as [[-> Hrep] | ->];
        apply invariant_intro; simpl; try assumption.
      split; [rewrite len_app; exact Hle | exact Hrep].
Qed.

Lemma call_preserves_invariant (pl : Z) (w0 : list bytes) (l : bytes)
    (s : Relay * Loop) :
  1 <= pl <= max_uint ->
  representable (l ++ newline) ->
  flush_invariant pl w0 s ->
  flush_invariant pl w0 (RelayLine (fst s) l, snd s).
Proof.
  destruct s as [r st]. intros Hp Hl (Hpl & Hw & Hq & Hbuf).
  simpl in Hpl, Hw, Hq, Hbuf.
  pose proof (RelayLine_frame r l) as (Hfp & Hfc & Hfq).
  unfold flush_invariant. simpl. rewrite Hfp, Hfc, Hfq.
  split; [exact Hpl|]. split; [exact Hw|]. split; [|exact Hbuf].
  apply Forall_app. split; [exact Hq|].
  destruct (accepted r l) eqn:Ha; [|constructor].
  constructor; [|constructor].
  rewrite <- Hpl. apply accepted_within_bound; [rewrite Hpl|..]; assumption.
Qed.

Lemma run_preserves_invariant (pl : Z) (w0 : list bytes)
    (es : list Event) (s : Relay * Loop) :
  1 <= pl <= max_uint ->
  Forall callable es ->
  flush_invariant pl w0 s ->
  flush_invariant pl w0 (system_run es s).
Proof.
  intros Hp. revert s. induction es as [|e es IH]; intros s Hes Hinv.
  - exact Hinv.
  - apply Forall_cons in Hes as [He Hes]. simpl.
    apply IH; [exact Hes|].
    destruct e as [l|c]; simpl.
    + apply call_preserves_invariant; assumption.
    + apply turn_preserves_invariant, Hinv.
Qed.

(** C8.  With a packet length of at least one, queued lines within the
    bound [RelayLine] lets through and a buffer within it, whatever lines the
    listeners then pass and however the loop is scheduled, every datagram
    handed to the socket is not empty and at most [packetLength] bytes
    long.  [sendPacket] hands no empty datagram to the socket. *)
Theorem datagrams_well_sized (r : Relay) (st : Loop) (es : list Event) :
  1 <= packetLength r <= max_uint ->
  Forall (within_bound (packetLength r)) (bufferChannel r) ->
  within_bound (packetLength r) (buffer st) ->
  Forall callable es ->
  (exists new : list bytes,
      written (conn (fst (system_run es (r, st)))) = written (conn r) ++ new
      /\ Forall (fun d => d <> [] /\ len d <= packetLength r) new)
  /\ (forall (r0 : Relay) (buf : bytes),
        exists new : list bytes,
          written (conn (fst (sendPacket r0 buf)))
            = written (conn r0) ++ new
          /\ Forall (fun d => d <> []) new).
Proof.
  intros Hp Hq Hbuf Hes. split; [|apply sendPacket_never_empty].
  assert (Hinit : flush_invariant (packetLength r) (written (conn r))
                    (r, st)).
  { repeat split; simpl; try assumption; try apply Hbuf.
    exists []. rewrite app_nil_r. split; [reflexivity | constructor]. }
  destruct (run_preserves_invariant _ _ es _ Hp Hes Hinit)
    as (_ & (new & Hw & Hnew) & _).
  exists new. split; [exact Hw|].
  eapply Forall_impl; [exact Hnew|].
  intros d [Hpos Hle]. split; [|exact Hle].
  intros ->. unfold len in Hpos. simpl in Hpos. lia.
Qed.

Lemma datagrams_well_sized_witness :
  let r := sample_relay 8 reliable in
  let es := [Call counter_line; Call gauge_line; Turn Recv; Turn Recv;
             Turn Tick] in
  (exists new : list bytes,
      written (conn (fst (system_run es (r, start))))
        = written (conn r) ++ new
      /\ Forall (fun d => d <> [] /\ len d <= packetLength r) new)
  /\ (forall (r0 : Relay) (buf : bytes),
        exists new : list bytes,
          written (conn (fst (sendPacket r0 buf)))
            = written (conn r0) ++ new
          /\ Forall (fun d => d <> []) new).
Proof.
  intros r es.
  apply (datagrams_well_sized r start es).
  - vm_compute. split; discriminate.
  - constructor.
  - vm_compute. split; discriminate.
  - repeat constructor; vm_compute; discriminate.
Defined.

(** The run of the witness: the two lines do not fit one datagram of 8
    bytes, so each leaves alone. *)
Example two_lines_two_datagrams :
  written (conn (fst (system_run
                        [Call counter_line; Call gauge_line; Turn Recv;
                         Turn Recv; Turn Tick]
                        (sample_relay 8 reliable, start))))
    = [terminated counter_line; terminated gauge_line].
Proof. vm_compute. reflexivity. Qed.

(** With room for both, the two lines leave as one datagram. *)
Example two_lines_one_datagram :
  written (conn (fst (system_run
                        [Call counter_line; Call gauge_line; Turn Recv;
                         Turn Recv; Turn Tick]
                        (sample_relay 1400 reliable, start))))
    = [terminated counter_line ++ terminated gauge_line].
Proof. vm_compute. reflexivity. Qed.

End FlushFacts.

(** ** reloadConfig and getCache *)

Module MainFacts.
Import Go Main MainSpec.

Section WithPackages.
Context `{MapperPackages}.

Lemma IncWith_at (v : gmap (list string) nat) (lvs : list string) :
  Prom.WithLabelValues (Prom.IncWith v lvs) lvs
    = S (Prom.WithLabelValues v lvs).
Proof.
  unfold Prom.WithLabelValues, Prom.IncWith.
  rewrite lookup_insert_eq. reflexivity.
Qed.

Lemma IncWith_elsewhere (v : gmap (list string) nat)
    (lvs lvs' : list string) :
  lvs <> lvs' ->
  Prom.WithLabelValues (Prom.IncWith v lvs) lvs'
    = Prom.WithLabelValues v lvs'.
Proof.
  intros Hne. unfold Prom.WithLabelValues, Prom.IncWith.
  rewrite lookup_insert_ne by exact Hne. reflexivity.
Qed.

(** [reloadConfig] in one equation: the mapper is the one
    [InitFromFile] left, the gauge and the logger are as it left them,
    then one counter of [configLoads] goes up and one record is
    logged. *)
Lemma reloadConfig_eq (fileName : string) (mapper : MetricMapper)
    (p : Process) :
  let load := InitFromFile fileName mapper (mappingsCount (metrics p))
                           (logger p) in
  let m := with_mappingsCount (metrics p) (snd (fst (fst load))) in
  reloadConfig fileName mapper p =
    (fst (fst (fst load)),
     mkProcess
       (with_configLoads m
          (Prom.IncWith (configLoads m) [outcome_label (snd load)]))
       (snd (fst load) ++ [outcome_entry (snd load)])).
Proof.
  cbv zeta. unfold reloadConfig.
  destruct (InitFromFile fileName mapper (mappingsCount (metrics p))
              (logger p)) as [[[mapper' g] lg] [e|]];
    reflexivity.
Qed.

(** C6.  A call of [reloadConfig] adds one to the counter of
    [configLoads] labelled "failure" when [InitFromFile] returns an
    error and to the one labelled "success" when it returns none, and
    to no other; it leaves every other counter of the package as it
    was; the last record it logs tells the outcome. *)
Theorem reloadConfig_counts_outcome (fileName : string)
    (mapper : MetricMapper) (p : Process) :
  let err := snd (InitFromFile fileName mapper
                    (mappingsCount (metrics p)) (logger p)) in
  let p' := snd (reloadConfig fileName mapper p) in
  let label := match err with
               | Some _ => "failure"
               | None => "success"
               end in
  (forall lvs : list string,
      Prom.WithLabelValues (configLoads (metrics p')) lvs
      = (Prom.WithLabelValues (configLoads (metrics p)) lvs
         + (if bool_decide (lvs = [label]) then 1 else 0))%nat)
  /\ other_collectors (metrics p') = other_collectors (metrics p)
  /\ last (logger p')
     = Some match err with
            | Some e =>
                Slog.mkEntry Slog.Info "Error reloading config"
                             [("error", Slog.VError e)]
            | None =>
                Slog.mkEntry Slog.Info "Config reloaded successfully" []
            end.
Proof.
  cbv zeta. rewrite reloadConfig_eq. simpl.
  change (match snd (InitFromFile fileName mapper
                       (mappingsCount (metrics p)) (logger p)) with
          | Some _ => "failure"
          | None => "success"
          end)
    with (outcome_label
            (snd (InitFromFile fileName mapper
                    (mappingsCount (metrics p)) (logger p)))).
  split; [|split].
  - intros lvs. case_bool_decide as Hl.
    + subst lvs. rewrite IncWith_at. lia.
    + rewrite IncWith_elsewhere by congruence. lia.
  - reflexivity.
  - apply last_snoc.
Qed.

(** C7.  [getCache] with size 0 returns no cache and no error,
    whatever the type.  With another size, for the type "lru" it
    returns what the LRU constructor made and for the type "random"
    what the random-replacement constructor made: the cache under the
    interface, or the constructor's error and no cache.  For any other
    type it returns an error and no cache. *)
Theorem getCache_dispatch (cacheSize : Z) (cacheType : string)
    (registerer : Registerer) :
  (cacheSize = 0 ->
   getCache cacheSize cacheType registerer = (registerer, (None, None)))
  /\ (cacheSize <> 0 -> cacheType = "lru" ->
      getCache cacheSize cacheType registerer
        = constructed LRU (NewMetricMapperLRUCache registerer cacheSize))
  /\ (cacheSize <> 0 -> cacheType = "random" ->
      getCache cacheSize cacheType registerer
        = constructed Random
            (NewMetricMapperRRCache registerer cacheSize))
  /\ (cacheSize <> 0 -> cacheType <> "lru" -> cacheType <> "random" ->
      getCache cacheSize cacheType registerer
        = (registerer,
           (None,
            Some (Errorf "unsupported cache type %q" cacheType)))).
Proof.
  unfold getCache, constructed.
  split; [intros ->; reflexivity|].
  split; [|split].
  - intros Hs ->. rewrite (proj2 (Z.eqb_neq _ _) Hs). simpl.
    destruct (NewMetricMapperLRUCache registerer cacheSize)
      as [reg [c [e|]]]; reflexivity.
  - intros Hs ->. rewrite (proj2 (Z.eqb_neq _ _) Hs). simpl.
    destruct (NewMetricMapperRRCache registerer cacheSize)
      as [reg [c [e|]]]; reflexivity.
  - intros Hs Hl Hr. rewrite (proj2 (Z.eqb_neq _ _) Hs).
    rewrite !bool_decide_eq_false_2 by assumption. reflexivity.
Qed.

End WithPackages.

Lemma getCache_dispatch_witness :
  @getCache sample_packages 0 "lfu" [] = ([], (None, None))
  /\ @getCache sample_packages 1000 "lru" []
     = (["lru"], (Some (@LRU sample_packages 1000), None))
  /\ @getCache sample_packages 1000 "random" []
     = (["random"], (Some (@Random sample_packages 1000), None))
  /\ @getCache sample_packages 1000 "lfu" []
     = ([], (None, Some (Errorf "unsupported cache type %q" "lfu"))).
Proof.
  split; [|split; [|split]].
  - apply (@getCache_dispatch sample_packages 0 "lfu" []). reflexivity.
  - apply (@getCache_dispatch sample_packages 1000 "lru" []);
      [discriminate | reflexivity].
  - apply (@getCache_dispatch sample_packages 1000 "random" []);
      [discriminate | reflexivity].
  - apply (@getCache_dispatch sample_packages 1000 "lfu" []);
      discriminate.
Defined.

(** A reload that fails and one that succeeds, on the stand-in. *)
Example reload_failure_counted :
  let p' := snd (@reloadConfig sample_packages "missing.yml" 0%nat
                   sample_process) in
  Prom.WithLabelValues (configLoads (metrics p')) ["failure"] = 1%nat
  /\ Prom.WithLabelValues (configLoads (metrics p')) ["success"] = 0%nat.
Proof. vm_compute. split; reflexivity. Qed.

Example reload_success_counted :
  let p' := snd (@reloadConfig sample_packages "statsd.yml" 0%nat
                   sample_process) in
  Prom.WithLabelValues (configLoads (metrics p')) ["failure"] = 0%nat
  /\ Prom.WithLabelValues (configLoads (metrics p')) ["success"] = 1%nat.
Proof. vm_compute. split; reflexivity. Qed.

End MainFacts.

(** ** The relay over many calls and turns *)

Module RelayBatchFacts.
Import Go Relay RelaySpec RelayBatch GoFacts RelayLineFacts FlushFacts.

(** *** Counters *)

Lemma sendPacket_packetsTotal (r : Relay) (buf : bytes) :
  packetsTotal (fst (sendPacket r buf))
    = (packetsTotal r + length (datagram_of buf))%nat.
Proof.
  destruct buf as [|x buf].
  - rewrite sendPacket_empty. simpl. lia.
  - rewrite sendPacket_nonempty by discriminate. simpl.
    unfold Prom.Inc. lia.
Qed.

(** What a turn of the loop does to the socket and to the packet counter:
    at most the buffer is written, and it is counted. *)
Lemma step_socket (c : SelectCase) (s : Relay * Loop) :
  exists dg : list bytes,
    (dg = [] \/ dg = [buffer (snd s)]) /\
    written (conn (fst (relayOutput_step c s)))
      = written (conn (fst s)) ++ dg /\
    outcome (conn (fst (relayOutput_step c s))) = outcome (conn (fst s)) /\
    packetsTotal (fst (relayOutput_step c s))
      = (packetsTotal (fst s) + length dg)%nat.
Proof.
  destruct s as [r st].
  assert (Hnone : exists dg : list bytes,
             (dg = [] \/ dg = [buffer st]) /\
             written (conn r) = written (conn r) ++ dg /\
             outcome (conn r) = outcome (conn r) /\
             packetsTotal r = (packetsTotal r + length dg)%nat).
  { exists []. rewrite app_nil_r. simpl. repeat split; auto. }
  assert (Hdg : datagram_of (buffer st) = []
                \/ datagram_of (buffer st) = [buffer st])
    by (destruct (buffer st); simpl; auto).
  destruct (status_dec st) as [Hs|Hs];
    [|rewrite (step_stopped c (r, st) Hs); exact Hnone].
  destruct c.
  - rewrite (step_tick r st Hs).
    pose proof (sendPacket_written r (buffer st)) as Hw.
    pose proof (sendPacket_frame r (buffer st)) as (_ & _ & Ho & _).
    pose proof (sendPacket_packetsTotal r (buffer st)) as Hp.
    exists (datagram_of (buffer st)).
    destruct (snd (sendPacket r (buffer st))); simpl; auto.
  - destruct (bufferChannel r) as [|b rest] eqn:Hc;
      [rewrite (step_recv_blocked r st Hc); exact Hnone|].
    destruct (over_capacity r (buffer st) b) eqn:Hov.
    + rewrite (step_recv_flush r st b rest Hs Hc Hov).
      pose proof (sendPacket_written (before_flush r st rest) (buffer st))
        as Hw.
      pose proof (sendPacket_frame (before_flush r st rest) (buffer st))
        as (_ & _ & Ho & _).
      pose proof (sendPacket_packetsTotal (before_flush r st rest)
                    (buffer st)) as Hp.
      simpl in Hw, Ho, Hp.
      exists (datagram_of (buffer st)).
      destruct (snd (sendPacket (before_flush r st rest) (buffer st)));
        [simpl; auto|].
      unfold write. destruct (Buffer_Write [] b); simpl; auto.
    + rewrite (step_recv_append r st b rest Hs Hc Hov).
      unfold write. destruct (Buffer_Write (buffer st) b); exact Hnone.
Qed.

(** What a call of [RelayLine] changes: the queue and one of the two line
    counters, by what the guards decide. *)
Lemma RelayLine_effect (r : Relay) (l : bytes) :
  packetLength (RelayLine r l) = packetLength r /\
  conn (RelayLine r l) = conn r /\
  packetsTotal (RelayLine r l) = packetsTotal r /\
  bufferChannel (RelayLine r l)
    = bufferChannel r ++ (if accepted r l then [terminated l] else []) /\
  relayedLinesTotal (RelayLine r l)
    = (relayedLinesTotal r + (if accepted r l then 1 else 0))%nat /\
  longLinesTotal (RelayLine r l)
    = (longLinesTotal r + (if too_long r l then 1 else 0))%nat.
Proof.
  destruct (accepted r l) eqn:Ha.
  - rewrite (RelayLine_accepted r l Ha). simpl.
    unfold accepted, too_long in *. cbv zeta in *.
    apply andb_true_iff in Ha as [_ Ha]. apply negb_true_iff in Ha.
    rewrite Ha, andb_false_r. unfold Prom.Inc.
    repeat split; lia.
  - unfold accepted, too_long in *. unfold RelayLine. cbv zeta in *.
    destruct (to_uint (len l) =? 0); simpl in *;
      [rewrite app_nil_r; repeat split; lia|].
    destruct (to_uint (len l) >? uint_sub (packetLength r) 1);
      simpl in *; [|discriminate].
    rewrite app_nil_r. unfold Prom.Inc. repeat split; lia.
Qed.

Lemma guards_after_call (r : Relay) (l l' : bytes) :
  accepted (RelayLine r l) l' = accepted r l' /\
  too_long (RelayLine r l) l' = too_long r l'.
Proof.
  unfold accepted, too_long.
  destruct (RelayLine_effect r l) as (-> & _). auto.
Qed.

Lemma filter_guard_after_call (f : Relay -> bytes -> bool) (r r' : Relay)
    (ls : list bytes) :
  (forall l, f r' l = f r l) ->
  List.filter (f r') ls = List.filter (f r) ls.
Proof.
  intros Hf. induction ls as [|l ls IH]; simpl; [reflexivity|].
  rewrite Hf, IH. reflexivity.
Qed.

(** X2.  A batch of calls of [RelayLine] queues the accepted lines, each
    with its newline, behind what was queued and in the order of the
    calls; the relayed-lines counter goes up by the number of accepted
    lines and the long-lines counter by the number of lines found too
    long; the socket and the packet counter are left alone. *)
Theorem RelayLines_batch (ls : list bytes) (r : Relay) :
  let r' := RelayLines ls r in
  bufferChannel r'
    = bufferChannel r ++ map terminated (List.filter (accepted r) ls) /\
  relayedLinesTotal r'
    = (relayedLinesTotal r + length (List.filter (accepted r) ls))%nat /\
  longLinesTotal r'
    = (longLinesTotal r + length (List.filter (too_long r) ls))%nat /\
  conn r' = conn r /\
  packetsTotal r' = packetsTotal r /\
  packetLength r' = packetLength r.
Proof.
  cbv zeta. revert r. induction ls as [|l ls IH]; intros r.
  - simpl. rewrite app_nil_r. repeat split; lia.
  - unfold RelayLines in *. simpl.
    destruct (IH (RelayLine r l)) as (Hq & Hrel & Hlong & Hc & Hp & Hpl).
    destruct (RelayLine_effect r l) as (Epl & Ec & Ep & Eq & Erel & Elong).
    rewrite Hq, Hrel, Hlong, Hc, Hp, Hpl, Epl, Ec, Ep, Eq, Erel, Elong.
    rewrite (filter_guard_after_call accepted r (RelayLine r l) ls)
      by (intros l'; apply guards_after_call).
    rewrite (filter_guard_after_call too_long r (RelayLine r l) ls)
      by (intros l'; apply guards_after_call).
    destruct (accepted r l), (too_long r l); simpl;
      rewrite <- ?app_assoc; simpl; repeat split; lia.
Qed.

(** X1.  However calls and turns interleave, the packet counter goes up
    by one for each datagram handed to the socket, whether the write
    failed or not, and by nothing else. *)
Theorem packets_counter_counts_datagrams (es : list Event)
    (s : Relay * Loop) :
  (packetsTotal (fst (system_run es s)) + length (written (conn (fst s)))
   = packetsTotal (fst s)
     + length (written (conn (fst (system_run es s)))))%nat.
Proof.
  revert s. induction es as [|e es IH]; intros s.
  - simpl. lia.
  - simpl. specialize (IH (system_step s e)).
    destruct e as [l|c]; simpl in *.
    + destruct (RelayLine_effect (fst s) l) as (_ & Ec & Ep & _).
      rewrite Ec, Ep in IH. exact IH.
    + destruct (step_socket c s) as (dg & _ & Hw & _ & Hp).
      rewrite Hw, Hp, length_app in IH. lia.
Qed.

(** X3.  With a packet length of 1 no line is ever queued: a batch of
    calls leaves the queue and the relayed-lines counter as they were. *)
Theorem packetLength_one_relays_nothing (ls : list bytes) (r : Relay) :
  packetLength r = 1 ->
  bufferChannel (RelayLines ls r) = bufferChannel r /\
  relayedLinesTotal (RelayLines ls r) = relayedLinesTotal r.
Proof.
  revert r. induction ls as [|l ls IH]; intros r Hp; [split; reflexivity|].
  assert (Hrej : accepted r l = false).
  { unfold accepted. cbv zeta. rewrite Hp.
    change (uint_sub 1 1) with 0.
    pose proof (to_uint_range (len l)) as [Hlo _].
    destruct (Z.eqb_spec (to_uint (len l)) 0) as [|Hne];
      [reflexivity|].
    destruct (Z.gtb_spec (to_uint (len l)) 0); [reflexivity | lia]. }
  destruct (RelayLine_effect r l) as (Epl & _ & _ & Eq & Erel & _).
  rewrite Hrej, app_nil_r in Eq. rewrite Hrej in Erel.
  unfold RelayLines in *. simpl.
  destruct (IH (RelayLine r l)) as [Hq Hrel]; [congruence|].
  rewrite Hq, Hrel, Eq, Erel. split; [reflexivity | lia].
Qed.

Lemma packetLength_one_relays_nothing_witness :
  let r := sample_relay 1 reliable in
  let ls := [counter_line; []; terminated gauge_line] in
  bufferChannel (RelayLines ls r) = bufferChannel r /\
  relayedLinesTotal (RelayLines ls r) = relayedLinesTotal r.
Proof.
  intros r ls.
  apply (packetLength_one_relays_nothing ls r).
  reflexivity.
Defined.

(** *** Whole lines *)

Lemma concat_queued_nonempty (cur : list bytes) :
  Forall queued_line cur -> cur <> [] ->
  datagram_of (concat cur) = [concat cur].
Proof.
  intros Hq Hne. destruct cur as [|b cur]; [contradiction|].
  apply Forall_cons in Hq as [[Hb _] _].
  destruct b as [|x b]; [contradiction | reflexivity].
Qed.

(** Sending the buffer closes the group of lines it holds. *)
Lemma close_group (pl : Z) (w0 w : list bytes) (groups : list (list bytes))
    (buf : bytes) (cur tail chan0 : list bytes) :
  w = w0 ++ map (@concat byte) groups ->
  chan0 = concat groups ++ cur ++ tail ->
  Forall (datagram_group pl) groups ->
  Forall queued_line chan0 ->
  buf = concat cur ->
  len (concat cur) <= pl \/ (length cur <= 1)%nat ->
  exists groups' : list (list bytes),
    w ++ datagram_of buf = w0 ++ map (@concat byte) groups' /\
    chan0 = concat groups' ++ tail /\
    Forall (datagram_group pl) groups'.
Proof.
  intros Hw Hc Hg Hq -> Hsize.
  destruct cur as [|b cur].
  - exists groups. simpl. rewrite app_nil_r. auto.
  - exists (groups ++ [b :: cur]).
    assert (Hcur : Forall queued_line (b :: cur)).
    { rewrite Hc in Hq. apply Forall_app in Hq as [_ Hq].
      apply Forall_app in Hq as [Hq _]. exact Hq. }
    rewrite (concat_queued_nonempty (b :: cur) Hcur) by discriminate.
    rewrite map_app, concat_app, Hw, <- !app_assoc. simpl.
    rewrite app_nil_r.
    split; [reflexivity|]. split; [rewrite Hc; reflexivity|].
    apply Forall_app. split; [exact Hg|].
    constructor; [|constructor].
    split; [discriminate|].
    destruct Hsize as [Hle | Hone]; [left; exact Hle|].
    right. simpl in *. lia.
Qed.

Lemma batched_stopped (pl : Z) (chan0 w0 : list bytes) (r : Relay)
    (st : Loop) (groups : list (list bytes)) (rest : list bytes) :
  packetLength r = pl ->
  written (conn r) = w0 ++ map (@concat byte) groups ->
  chan0 = concat groups ++ rest ->
  Forall (datagram_group pl) groups ->
  status st <> Running ->
  batched pl chan0 w0 (r, st) groups rest.
Proof.
  intros Hp Hw Hc Hg Hs. unfold batched. simpl.
  repeat split; try assumption. intros Hrun. contradiction.
Qed.

Lemma batched_running (pl : Z) (chan0 w0 : list bytes) (r : Relay)
    (buf : bytes) (groups : list (list bytes)) (cur : list bytes) :
  packetLength r = pl ->
  written (conn r) = w0 ++ map (@concat byte) groups ->
  chan0 = concat groups ++ cur ++ bufferChannel r ->
  Forall (datagram_group pl) groups ->
  buf = concat cur ->
  representable buf ->
  len (concat cur) <= pl \/ (length cur <= 1)%nat ->
  batched pl chan0 w0 (r, mkLoop buf Running) groups
          (cur ++ bufferChannel r).
Proof.
  intros Hp Hw Hc Hg Hb Hr Hsize. unfold batched. simpl.
  repeat split; try assumption. intros _. exists cur. auto.
Qed.

Lemma representable_nil : representable (@nil byte).
Proof. unfold representable, len. simpl. rewrite max_int_eq. lia. Qed.

Lemma step_batched (pl : Z) (chan0 w0 : list bytes) (c : SelectCase)
    (s : Relay * Loop) (groups : list (list bytes)) (rest : list bytes) :
  Forall queued_line chan0 ->
  batched pl chan0 w0 s groups rest ->
  exists (groups' : list (list bytes)) (rest' : list bytes),
    batched pl chan0 w0 (relayOutput_step c s) groups' rest'.
Proof.
  destruct s as [r st]. intros Hq Hinv.
  destruct (status_dec st) as [Hs|Hs];
    [|rewrite (step_stopped c (r, st) Hs); eauto].
  destruct Hinv as (Hpl & Hw & Hc & Hg & Hrun). simpl in Hpl, Hw, Hc, Hg, Hrun.
  destruct (Hrun Hs) as (cur & Hbuf & Hrest & Hrep & Hsize). clear Hrun.
  subst rest.
  destruct c.
  - (* tick *)
    rewrite (step_tick r st Hs).
    pose proof (sendPacket_written r (buffer st)) as Hsw.
    pose proof (sendPacket_frame r (buffer st)) as (Hch & Hp & _).
    destruct (close_group pl w0 _ groups (buffer st) cur (bufferChannel r)
                chan0 Hw Hc Hg Hq Hbuf Hsize) as (groups' & Hw' & Hc' & Hg').
    rewrite <- Hsw in Hw'.
    destruct (snd (sendPacket r (buffer st))).
    + exists groups', (bufferChannel r).
      apply batched_stopped; simpl; try congruence.
    + exists groups', ([] ++ bufferChannel (fst (sendPacket r (buffer st)))).
      apply batched_running; simpl; try congruence;
        try apply representable_nil.
      right. lia.
  - (* a line is received *)
    destruct (bufferChannel r) as [|b tail] eqn:Hchan.
    { rewrite (step_recv_blocked r st Hchan).
      exists groups, (cur ++ bufferChannel r).
      destruct st as [buf stat]. simpl in *. subst stat.
      apply batched_running; try assumption. rewrite Hchan. exact Hc. }
    assert (Hb : queued_line b).
    { rewrite Hc in Hq. apply Forall_app in Hq as [_ Hq].
      apply Forall_app in Hq as [_ Hq].
      apply Forall_cons in Hq as [Hb _]. exact Hb. }
    destruct (over_capacity r (buffer st) b) eqn:Hov.
    + rewrite (step_recv_flush r st b tail Hs Hchan Hov).
      pose proof (sendPacket_written (before_flush r st tail) (buffer st))
        as Hsw.
      pose proof (sendPacket_frame (before_flush r st tail) (buffer st))
        as (Hch & Hp & _).
      simpl in Hsw, Hch, Hp.
      destruct (close_group pl w0 _ groups (buffer st) cur (b :: tail)
                  chan0 Hw Hc Hg Hq Hbuf Hsize)
        as (groups' & Hw' & Hc' & Hg').
      rewrite <- Hsw in Hw'.
      destruct (snd (sendPacket (before_flush r st tail) (buffer st))).
      * exists groups', (b :: tail).
        apply batched_stopped; simpl; try congruence.
      * destruct (write_cases
                    (fst (sendPacket (before_flush r st tail) (buffer st)))
                    [] b) as [[-> Hrb] | ->].
        -- exists groups',
             ([b] ++ bufferChannel
                       (fst (sendPacket (before_flush r st tail)
                               (buffer st)))).
           apply batched_running; simpl; try congruence;
             try (rewrite app_nil_r; reflexivity);
             [apply Hb | right; lia].
        -- exists groups', (b :: tail).
           apply batched_stopped; simpl; try congruence.
    + rewrite (step_recv_append r st b tail Hs Hchan Hov).
      assert (Hle : len (buffer st) + len b <= pl).
      { destruct Hb as [_ Hrl].
        pose proof (over_capacity_iff r (buffer st) b Hrep Hrl) as Hover.
        rewrite Hov in Hover. rewrite <- Hpl.
        destruct (Z.le_gt_cases (len (buffer st) + len b) (packetLength r))
          as [H|H]; [exact H|].
        assert (Hf : false = true) by (apply Hover; lia).
        discriminate Hf. }
      destruct (write_cases
                  (log (with_channel r tail) Slog.Debug
                       "Adding line to buffer" [("line", Slog.VString b)])
                  (buffer st) b) as [[-> Hrb] | ->].
      * exists groups, ((cur ++ [b]) ++ tail).
        apply (batched_running pl chan0 w0
                 (log (with_channel r tail) Slog.Debug
                      "Adding line to buffer" [("line", Slog.VString b)])
                 (buffer st ++ b) groups (cur ++ [b]));
          simpl; try assumption.
        -- rewrite Hc, <- app_assoc. reflexivity.
        -- rewrite Hbuf, concat_app. simpl. rewrite app_nil_r. reflexivity.
        -- left. rewrite concat_app. simpl. rewrite app_nil_r.
           rewrite len_app, <- Hbuf. exact Hle.
      * exists groups, (cur ++ b :: tail).
        apply batched_stopped; simpl; try assumption; discriminate.
Qed.

Lemma run_batched (pl : Z) (chan0 w0 : list bytes)
    (sched : list SelectCase) (s : Relay * Loop)
    (groups : list (list bytes)) (rest : list bytes) :
  Forall queued_line chan0 ->
  batched pl chan0 w0 s groups rest ->
  exists (groups' : list (list bytes)) (rest' : list bytes),
    batched pl chan0 w0 (relayOutput sched s) groups' rest'.
Proof.
  intros Hq. revert s groups rest.
  induction sched as [|c sched IH]; intros s groups rest Hinv.
  - eauto.
  - destruct (step_batched pl chan0 w0 c s groups rest Hq Hinv)
      as (groups1 & rest1 & Hinv1).
    apply (IH _ groups1 rest1 Hinv1).
Qed.

Lemma batched_start (r : Relay) :
  batched (packetLength r) (bufferChannel r) (written (conn r)) (r, start)
          [] (bufferChannel r).
Proof.
  unfold batched. simpl. rewrite app_nil_r.
  repeat split; try constructor.
  intros _. exists []. simpl.
  repeat split; [apply representable_nil | right; lia].
Qed.

(** X5.  From its start the loop cuts the queue into datagrams at line
    boundaries: the datagrams written are the concatenations of
    consecutive groups of queued lines, in queue order, with no line
    split, skipped or repeated; a datagram longer than the packet length
    holds one line alone.  While the loop runs, the lines after the
    written groups are those in the buffer followed by those still
    queued. *)
Theorem datagrams_are_whole_lines (r : Relay) (sched : list SelectCase) :
  Forall queued_line (bufferChannel r) ->
  exists (groups : list (list bytes)) (rest : list bytes),
    written (conn (fst (relayOutput sched (r, start))))
      = written (conn r) ++ map (@concat byte) groups /\
    bufferChannel r = concat groups ++ rest /\
    Forall (datagram_group (packetLength r)) groups /\
    (status (snd (relayOutput sched (r, start))) = Running ->
     exists cur : list bytes,
       buffer (snd (relayOutput sched (r, start))) = concat cur /\
       rest = cur ++ bufferChannel (fst (relayOutput sched (r, start)))).
Proof.
  intros Hq.
  destruct (run_batched _ _ _ sched _ _ _ Hq (batched_start r))
    as (groups & rest & _ & Hw & Hc & Hg & Hrun).
  exists groups, rest.
  split; [exact Hw|]. split; [exact Hc|]. split; [exact Hg|].
  intros Hs. destruct (Hrun Hs) as (cur & Hbuf & Hrest & _).
  exists cur. auto.
Qed.

Lemma datagrams_are_whole_lines_witness :
  let r := with_channel (sample_relay 8 reliable)
             [terminated counter_line; terminated gauge_line] in
  let sched := [Recv; Recv; Tick] in
  exists (groups : list (list bytes)) (rest : list bytes),
    written (conn (fst (relayOutput sched (r, start))))
      = written (conn r) ++ map (@concat byte) groups /\
    bufferChannel r = concat groups ++ rest /\
    Forall (datagram_group (packetLength r)) groups /\
    (status (snd (relayOutput sched (r, start))) = Running ->
     exists cur : list bytes,
       buffer (snd (relayOutput sched (r, start))) = concat cur /\
       rest = cur ++ bufferChannel (fst (relayOutput sched (r, start)))).
Proof.
  intros r sched.
  apply (datagrams_are_whole_lines r sched).
  repeat constructor; try discriminate; vm_compute; discriminate.
Defined.

Lemma singleton_groups (groups : list (list bytes)) :
  Forall (fun g : list bytes => length g = 1%nat) groups ->
  map (@concat byte) groups = concat groups.
Proof.
  induction 1 as [|g groups Hg _ IH]; [reflexivity|].
  destruct g as [|b [|b' g]]; try discriminate.
  simpl. rewrite app_nil_r, IH. reflexivity.
Qed.

(** X6.  With a packet length of 0 the loop does not batch: from its
    start, the datagrams written are the first queued lines themselves,
    one line per datagram, in queue order. *)
Theorem zero_packetLength_one_line_per_datagram (r : Relay)
    (sched : list SelectCase) :
  packetLength r = 0 ->
  Forall queued_line (bufferChannel r) ->
  exists sent rest : list bytes,
    written (conn (fst (relayOutput sched (r, start))))
      = written (conn r) ++ sent /\
    bufferChannel r = sent ++ rest.
Proof.
  intros Hp Hq.
  destruct (run_batched _ _ _ sched _ _ _ Hq (batched_start r))
    as (groups & rest & _ & Hw & Hc & Hg & _).
  exists (concat groups), rest. split; [|exact Hc].
  rewrite Hw. f_equal. apply singleton_groups.
  rewrite Hc in Hq. apply Forall_app in Hq as [Hq _].
  rewrite Hp in Hg. clear Hw Hc.
  induction Hg as [|g groups [Hne Hsize] _ IH]; [constructor|].
  simpl in Hq. apply Forall_app in Hq as [Hqg Hq].
  constructor; [|apply IH, Hq].
  destruct Hsize as [Hle | Hone]; [|exact Hone].
  destruct g as [|b g]; [contradiction|].
  apply Forall_cons in Hqg as [[Hb _] _].
  simpl in Hle. rewrite len_app in Hle.
  pose proof (len_nonneg (concat g)).
  assert (0 < len b).
  { destruct b; [contradiction|]. unfold len. simpl. lia. }
  lia.
Qed.

Lemma zero_packetLength_one_line_per_datagram_witness :
  let r := with_channel (sample_relay 0 reliable)
             [terminated counter_line; terminated gauge_line] in
  let sched := [Recv; Recv; Tick] in
  exists sent rest : list bytes,
    written (conn (fst (relayOutput sched (r, start))))
      = written (conn r) ++ sent /\
    bufferChannel r = sent ++ rest.
Proof.
  intros r sched.
  apply (zero_packetLength_one_line_per_datagram r sched).
  - reflexivity.
  - repeat constructor; try discriminate; vm_compute; discriminate.
Defined.

(** *** Draining the queue *)

Lemma run_app (l1 l2 : list SelectCase) (s : Relay * Loop) :
  relayOutput (l1 ++ l2) s = relayOutput l2 (relayOutput l1 s).
Proof. unfold relayOutput. apply fold_left_app. Qed.

(** On a socket that takes every write, receiving a line leaves the loop
    running with the line out of the queue. *)
Lemma recv_reliable (r : Relay) (st : Loop) (b : bytes)
    (tail : list bytes) :
  status st = Running ->
  bufferChannel r = b :: tail ->
  (forall n : nat, outcome (conn r) n = None) ->
  len (buffer st) + len b <= max_int ->
  bufferChannel (fst (relayOutput_step Recv (r, st))) = tail /\
  status (snd (relayOutput_step Recv (r, st))) = Running /\
  outcome (conn (fst (relayOutput_step Recv (r, st)))) = outcome (conn r) /\
  len (buffer (snd (relayOutput_step Recv (r, st))))
    <= len (buffer st) + len b.
Proof.
  intros Hs Hc Hnet Hfit.
  pose proof (len_nonneg (buffer st)) as Hbuf0.
  pose proof (len_nonneg b) as Hb0.
  destruct (over_capacity r (buffer st) b) eqn:Hov.
  - rewrite (step_recv_flush r st b tail Hs Hc Hov).
    pose proof (sendPacket_frame (before_flush r st tail) (buffer st))
      as (Hch & _ & Ho & _).
    pose proof (sendPacket_error (before_flush r st tail) (buffer st))
      as He.
    change (next_write (before_flush r st tail)) with (next_write r) in He.
    unfold next_write in He. rewrite Hnet in He.
    replace (snd (sendPacket (before_flush r st tail) (buffer st)))
      with (@None error) by (rewrite He; destruct (buffer st); reflexivity).
    rewrite (write_fits _ [] b) by (simpl; unfold len at 1; simpl; lia).
    simpl. rewrite Hch, Ho. simpl. repeat split; lia.
  - rewrite (step_recv_append r st b tail Hs Hc Hov).
    rewrite (write_fits _ (buffer st) b Hfit). simpl.
    rewrite len_app. repeat split; lia.
Qed.

Lemma recvs_reliable (chan : list bytes) (r : Relay) (st : Loop) :
  status st = Running ->
  bufferChannel r = chan ->
  (forall n : nat, outcome (conn r) n = None) ->
  len (buffer st) + len (concat chan) <= max_int ->
  let s' := relayOutput (List.repeat Recv (length chan)) (r, st) in
  bufferChannel (fst s') = [] /\
  status (snd s') = Running /\
  (forall n : nat, outcome (conn (fst s')) n = None).
Proof.
  revert r st. induction chan as [|b tail IH]; intros r st Hs Hc Hnet Hfit.
  - simpl. auto.
  - simpl in Hfit. rewrite len_app in Hfit.
    pose proof (len_nonneg (concat tail)) as Ht0.
    destruct (recv_reliable r st b tail Hs Hc Hnet) as (Hq & Hrun & Ho & Hl);
      [lia|].
    simpl.
    destruct (relayOutput_step Recv (r, st)) as [r1 st1] eqn:Hstep.
    simpl in Hq, Hrun, Ho, Hl.
    apply IH; try assumption.
    + intros n. rewrite Ho. apply Hnet.
    + lia.
Qed.

(** X7.  On a socket that takes every write, taking every queued line and
    then one tick delivers everything: the queue and the buffer end up
    empty, the loop is still running, and the bytes handed to the socket
    are those handed before followed by the buffer and the queued lines,
    in order. *)
Theorem drain_delivers_everything (r : Relay) (st : Loop) :
  status st = Running ->
  (forall n : nat, outcome (conn r) n = None) ->
  len (buffer st) + len (concat (bufferChannel r)) <= max_int ->
  let s' := relayOutput (drain r) (r, st) in
  bufferChannel (fst s') = [] /\
  snd s' = mkLoop [] Running /\
  concat (written (conn (fst s')))
    = concat (written (conn r)) ++ buffer st ++ concat (bufferChannel r).
Proof.
  intros Hs Hnet Hfit s'. subst s'. unfold drain. rewrite run_app.
  destruct (recvs_reliable (bufferChannel r) r st Hs eq_refl Hnet Hfit)
    as (Hq & Hrun & Hnet').
  destruct (relayOutput (List.repeat Recv (length (bufferChannel r))) (r, st))
    as [r1 st1] eqn:Hrecvs.
  simpl in Hq, Hrun, Hnet'.
  assert (Htick : relayOutput [Tick] (r1, st1)
                  = (fst (sendPacket r1 (buffer st1)), mkLoop [] Running)).
  { unfold relayOutput. simpl. rewrite (step_tick r1 st1 Hrun).
    rewrite sendPacket_error. unfold next_write. rewrite Hnet'.
    destruct (buffer st1); reflexivity. }
  pose proof (sendPacket_frame r1 (buffer st1)) as (Hch & _).
  assert (Hstream : stream (relayOutput [Tick] (r1, st1)) = stream (r, st)).
  { rewrite <- Hrecvs, <- run_app. apply run_stream.
    rewrite run_app, Hrecvs, Htick. reflexivity. }
  rewrite Htick in *. simpl. rewrite Hch, Hq.
  split; [reflexivity|]. split; [reflexivity|].
  unfold stream in Hstream. simpl in Hstream.
  rewrite Hch, Hq in Hstream. simpl in Hstream.
  rewrite app_nil_r in Hstream. exact Hstream.
Qed.

Lemma drain_delivers_everything_witness :
  let r := with_channel (sample_relay 8 reliable)
             [terminated counter_line; terminated gauge_line] in
  let s' := relayOutput (drain r) (r, start) in
  bufferChannel (fst s') = [] /\
  snd s' = mkLoop [] Running /\
  concat (written (conn (fst s')))
    = concat (written (conn r)) ++ buffer start
        ++ concat (bufferChannel r).
Proof.
  intros r.
  apply (drain_delivers_everything r start).
  - reflexivity.
  - intros n. reflexivity.
  - vm_compute. discriminate.
Defined.

(** X12.  On a socket that takes every write the loop never stops by
    itself: whatever the schedule, it is still running at the end and no
    byte on its way to the target was lost, added or reordered. *)
Theorem reliable_socket_keeps_loop_running (sched : list SelectCase)
    (r : Relay) (st : Loop) :
  status st = Running ->
  (forall n : nat, outcome (conn r) n = None) ->
  len (buffer st) + len (concat (bufferChannel r)) <= max_int ->
  status (snd (relayOutput sched (r, st))) = Running /\
  stream (relayOutput sched (r, st)) = stream (r, st).
Proof.
  intros Hs Hnet Hfit.
  assert (Hrun : status (snd (relayOutput sched (r, st))) = Running);
    [|split; [exact Hrun | apply run_stream, Hrun]].
  revert r st Hs Hnet Hfit.
  induction sched as [|c sched IH]; intros r st Hs Hnet Hfit; [exact Hs|].
  change (relayOutput (c :: sched) (r, st))
    with (relayOutput sched (relayOutput_step c (r, st))).
  destruct c.
  - (* tick *)
    rewrite (step_tick r st Hs), sendPacket_error.
    unfold next_write. rewrite Hnet.
    pose proof (sendPacket_frame r (buffer st)) as (Hch & _ & Ho & _).
    replace (match buffer st with [] => None | _ :: _ => None end)
      with (@None error) by (destruct (buffer st); reflexivity).
    apply IH; simpl.
    + reflexivity.
    + intros n. rewrite Ho. apply Hnet.
    + rewrite Hch. pose proof (len_nonneg (buffer st)).
      unfold len at 1. simpl. lia.
  - (* a line is received *)
    destruct (bufferChannel r) as [|b tail] eqn:Hc.
    + rewrite (step_recv_blocked r st Hc).
      apply IH; try assumption. rewrite Hc. exact Hfit.
    + simpl in Hfit. rewrite len_app in Hfit.
      pose proof (len_nonneg (concat tail)) as Ht0.
      destruct (recv_reliable r st b tail Hs Hc Hnet)
        as (Hq & Hrun & Ho & Hl); [lia|].
      destruct (relayOutput_step Recv (r, st)) as [r1 st1].
      simpl in Hq, Hrun, Ho, Hl.
      apply IH; try assumption.
      * intros n. rewrite Ho. apply Hnet.
      * rewrite Hq. lia.
Qed.

Lemma reliable_socket_keeps_loop_running_witness :
  let r := with_channel (sample_relay 8 reliable)
             [terminated counter_line; terminated gauge_line] in
  let sched := [Tick; Recv; Recv; Recv; Tick; Tick] in
  status (snd (relayOutput sched (r, start))) = Running /\
  stream (relayOutput sched (r, start)) = stream (r, start).
Proof.
  intros r sched.
  apply (reliable_socket_keeps_loop_running sched r start).
  - reflexivity.
  - intros n. reflexivity.
  - vm_compute. discriminate.
Defined.

End RelayBatchFacts.

(** ** Reloads on request, and the cache set-up again *)

Module LifecycleFacts.
Import Go Main MainSpec Lifecycle MainFacts.

Section WithPackages.
Context `{MapperPackages}.

(** A reload, whatever its outcome, is counted once in all; the other
    collectors of the package are as they were. *)
Lemma reloadConfig_total (fileName : string) (mapper : MetricMapper)
    (p : Process) :
  reloads_total (metrics (snd (reloadConfig fileName mapper p)))
    = S (reloads_total (metrics p)) /\
  other_collectors (metrics (snd (reloadConfig fileName mapper p)))
    = other_collectors (metrics p).
Proof.
  rewrite reloadConfig_eq. simpl. split; [|reflexivity].
  unfold reloads_total. simpl.
  destruct (snd (InitFromFile fileName mapper (mappingsCount (metrics p))
                   (logger p))); simpl.
  - rewrite IncWith_at, IncWith_elsewhere by discriminate. lia.
  - rewrite IncWith_at, IncWith_elsewhere by discriminate. lia.
Qed.

(** X8.  Without a mapping file name, [sighupConfigReloader] reloads
    nothing: whatever signals arrive, the mapper and every collector are
    as they were, and each signal leaves one warning in the log. *)
Theorem sighup_without_config (mapper : MetricMapper) (p : Process)
    (signals : list Signal) :
  sighupConfigReloader "" mapper p signals
    = (mapper,
       mkProcess (metrics p)
         (logger p
          ++ map (fun s =>
                    Slog.mkEntry Slog.Warn
                      "Received signal but no mapping config to reload"
                      [("signal", Slog.VString (Signal_String s))])
                 signals)).
Proof.
  unfold sighupConfigReloader. revert p.
  induction signals as [|s signals IH]; intros p.
  - simpl. rewrite app_nil_r. destruct p; reflexivity.
  - simpl. unfold sighupConfigReloader_body at 2. simpl.
    rewrite IH. simpl. unfold Slog.log. rewrite <- app_assoc. reflexivity.
Qed.

(** X9.  With a mapping file name, every signal taken from the channel
    is answered by one reload: the reloads counted, failures and successes
    together, go up by the number of signals, and the other collectors of
    the package are as they were. *)
Theorem sighup_counts_every_signal (fileName : string)
    (mapper : MetricMapper) (p : Process) (signals : list Signal) :
  fileName <> "" ->
  let p' := snd (sighupConfigReloader fileName mapper p signals) in
  reloads_total (metrics p')
    = (reloads_total (metrics p) + length signals)%nat /\
  other_collectors (metrics p') = other_collectors (metrics p).
Proof.
  intros Hf. cbv zeta. unfold sighupConfigReloader. revert mapper p.
  induction signals as [|s signals IH]; intros mapper p.
  - simpl. split; [lia | reflexivity].
  - simpl. unfold sighupConfigReloader_body at 2 4.
    rewrite bool_decide_eq_false_2 by exact Hf. simpl.
    destruct (reloadConfig fileName mapper
                (log p Slog.Info "Received signal, attempting reload"
                     [("signal", Slog.VString (Signal_String s))]))
      as [mapper1 p1] eqn:Hr.
    destruct (IH mapper1 p1) as [Ht Ho]. rewrite Ht, Ho.
    pose proof (reloadConfig_total fileName mapper
                  (log p Slog.Info "Received signal, attempting reload"
                       [("signal", Slog.VString (Signal_String s))]))
      as [Ht1 Ho1].
    rewrite Hr in Ht1, Ho1. simpl in Ht1, Ho1. rewrite Ht1, Ho1.
    split; [lia | reflexivity].
Qed.

(** X10.  The reload handler acts on PUT and POST only: any other method
    leaves the response, the mapper and the process untouched.  On PUT
    or POST the response body is written first, with or without a
    mapping file name; without one nothing is reloaded or counted, with
    one exactly one reload is counted. *)
Theorem reloadHandler_methods (mappingConfig method : string)
    (w : ResponseWriter) (thisMapper : MetricMapper) (p : Process) :
  let res := reloadHandler mappingConfig method w thisMapper p in
  (method <> "PUT" -> method <> "POST" -> res = (w, (thisMapper, p))) /\
  (method = "PUT" \/ method = "POST" ->
   fst res = w ++ [Write "Requesting reload"] /\
   (mappingConfig = "" ->
    fst (snd res) = thisMapper /\ metrics (snd (snd res)) = metrics p) /\
   (mappingConfig <> "" ->
    reloads_total (metrics (snd (snd res))) = S (reloads_total (metrics p))
    /\ other_collectors (metrics (snd (snd res)))
       = other_collectors (metrics p))).
Proof.
  cbv zeta. unfold reloadHandler, MethodPut, MethodPost. split.
  - intros Hput Hpost.
    rewrite !bool_decide_eq_false_2 by assumption. reflexivity.
  - intros Hm.
    assert (Hguard : bool_decide (method = "PUT")
                     || bool_decide (method = "POST") = true).
    { destruct Hm as [-> | ->]; reflexivity. }
    rewrite Hguard.
    destruct (decide (mappingConfig = "")) as [He|He].
    + rewrite bool_decide_eq_true_2 by exact He. simpl.
      split; [reflexivity|]. split; [auto | contradiction].
    + rewrite bool_decide_eq_false_2 by exact He. simpl.
      split; [reflexivity|]. split; [contradiction|].
      intros _.
      apply (reloadConfig_total mappingConfig thisMapper
               (log p Slog.Info
                    "Received lifecycle api reload, attempting reload" [])).
Qed.

(** X11.  For a size other than 0 [getCache] returns either a cache or
    an error, never both and never neither; and when the type is
    unsupported no constructor has run: the registerer is as it was. *)
Theorem getCache_cache_or_error (cacheSize : Z) (cacheType : string)
    (registerer : Registerer) :
  cacheSize <> 0 ->
  let res := getCache cacheSize cacheType registerer in
  (is_Some (fst (snd res)) <-> snd (snd res) = None) /\
  (cacheType <> "lru" -> cacheType <> "random" -> fst res = registerer).
Proof.
  intros Hs. cbv zeta. unfold getCache.
  rewrite (proj2 (Z.eqb_neq _ _) Hs). split.
  - case_bool_decide as El.
    { destruct (NewMetricMapperLRUCache registerer cacheSize)
        as [reg [c [e|]]]; simpl.
      - split; [intros [x Hx]; discriminate | discriminate].
      - split; [reflexivity | eauto]. }
    case_bool_decide as Er.
    { destruct (NewMetricMapperRRCache registerer cacheSize)
        as [reg [c [e|]]]; simpl.
      - split; [intros [x Hx]; discriminate | discriminate].
      - split; [reflexivity | eauto]. }
    simpl. split; [intros [x Hx]; discriminate | discriminate].
  - intros El Er. rewrite !bool_decide_eq_false_2 by assumption. reflexivity.
Qed.

End WithPackages.

Lemma sighup_counts_every_signal_witness :
  let p' := snd (@sighupConfigReloader sample_packages "missing.yml" 0%nat
                   sample_process [SIGHUP; SIGHUP; SIGHUP]) in
  reloads_total (metrics p')
    = (reloads_total (metrics sample_process) + 3)%nat /\
  other_collectors (metrics p') = other_collectors (metrics sample_process).
Proof.
  apply (@sighup_counts_every_signal sample_packages "missing.yml" 0%nat
           sample_process [SIGHUP; SIGHUP; SIGHUP]).
  discriminate.
Defined.

Lemma reloadHandler_methods_witness :
  @reloadHandler sample_packages "statsd.yml" "GET" [] 0%nat sample_process
    = ([], (0%nat, sample_process))
  /\ fst (@reloadHandler sample_packages "" "PUT" [] 0%nat sample_process)
     = [Write "Requesting reload"]
  /\ metrics (snd (snd (@reloadHandler sample_packages "" "PUT" [] 0%nat
                          sample_process)))
     = metrics sample_process
  /\ reloads_total
       (metrics (snd (snd (@reloadHandler sample_packages "statsd.yml"
                             "POST" [] 0%nat sample_process))))
     = S (reloads_total (metrics sample_process)).
Proof.
  split; [|split; [|split]].
  - apply (@reloadHandler_methods sample_packages "statsd.yml" "GET" []
             0%nat sample_process); discriminate.
  - apply (@reloadHandler_methods sample_packages "" "PUT" [] 0%nat
             sample_process). left. reflexivity.
  - destruct (@reloadHandler_methods sample_packages "" "PUT" [] 0%nat
                sample_process) as [_ Hput].
    destruct (Hput (or_introl eq_refl)) as (_ & Hnone & _).
    apply Hnone. reflexivity.
  - apply (@reloadHandler_methods sample_packages "statsd.yml" "POST" []
             0%nat sample_process); [right; reflexivity | discriminate].
Defined.

Lemma getCache_cache_or_error_witness :
  let res := @getCache sample_packages (-1) "lru" [] in
  (is_Some (fst (snd res)) <-> snd (snd res) = None) /\
  ("lru" <> "lru" -> "lru" <> "random" -> fst res = []).
Proof.
  apply (@getCache_cache_or_error sample_packages (-1) "lru" []).
  discriminate.
Defined.

End LifecycleFacts.

(** ** The stopped loop and the full channel *)

Module BoundedChannelFacts.
Import Go Relay RelaySpec RelayBatch BoundedChannel.
Import GoFacts RelayLineFacts FlushFacts RelayBatchFacts.

(** With room in the channel a call is [RelayLine] as modelled without
    the capacity: the statements before the send, then the send. *)
Lemma RelayLine_before_send_then_send (r : Relay) (l : bytes) :
  RelayLine r l =
    match RelayLine_before_send r l with
    | (r1, Some v) => with_channel r1 (bufferChannel r1 ++ [v])
    | (r1, None) => r1
    end.
Proof.
  unfold RelayLine, RelayLine_before_send. cbv zeta.
  destruct (to_uint (len l) =? 0); [reflexivity|].
  destruct (to_uint (len l) >? uint_sub (packetLength r) 1); reflexivity.
Qed.

Lemma RelayLine_before_send_effect (r : Relay) (l : bytes) :
  packetLength (fst (RelayLine_before_send r l)) = packetLength r /\
  conn (fst (RelayLine_before_send r l)) = conn r /\
  packetsTotal (fst (RelayLine_before_send r l)) = packetsTotal r /\
  bufferChannel (fst (RelayLine_before_send r l)) = bufferChannel r /\
  relayedLinesTotal (fst (RelayLine_before_send r l))
    = (relayedLinesTotal r + (if accepted r l then 1 else 0))%nat /\
  snd (RelayLine_before_send r l)
    = (if accepted r l then Some (terminated l) else None).
Proof.
  unfold RelayLine_before_send, accepted. cbv zeta.
  destruct (to_uint (len l) =? 0); simpl;
    [repeat split; lia|].
  destruct (to_uint (len l) >? uint_sub (packetLength r) 1); simpl.
  - repeat split; lia.
  - rewrite newline_added_when_absent. unfold Prom.Inc.
    repeat split; lia.
Qed.

Lemma send_filled (s : System) (v : bytes) (all : list bytes) :
  filled s all ->
  filled (send s v) (all ++ [v]) /\
  loop (send s v) = loop s /\
  conn (relay (send s v)) = conn (relay s) /\
  packetsTotal (relay (send s v)) = packetsTotal (relay s) /\
  relayedLinesTotal (relay (send s v)) = relayedLinesTotal (relay s) /\
  packetLength (relay (send s v)) = packetLength (relay s).
Proof.
  intros [Hq Hw]. unfold send, filled.
  destruct (Nat.ltb_spec (length (bufferChannel (relay s))) capacity)
    as [Hroom|Hfull]; simpl.
  - assert (Hall : (length all < capacity)%nat).
    { rewrite Hq, length_take in Hroom. lia. }
    rewrite Hq, Hw.
    rewrite (take_ge all), (drop_ge all) by lia.
    rewrite take_ge, drop_ge by (rewrite length_app; simpl; lia).
    repeat split.
  - assert (Hall : (capacity <= length all)%nat).
    { rewrite Hq, length_take in Hfull. lia. }
    rewrite Hq, Hw.
    rewrite take_app_le, drop_app_le by lia.
    repeat split.
Qed.

Lemma settle_filled (s : System) (all : list bytes) :
  filled s all -> settle s = s.
Proof.
  intros [Hq Hw]. unfold settle.
  destruct (waiting s) as [|v ws] eqn:Hws; [reflexivity|].
  destruct (Nat.ltb_spec (length (bufferChannel (relay s))) capacity)
    as [Hroom|Hfull]; [|reflexivity].
  rewrite Hq, length_take in Hroom.
  assert (Hdrop : drop capacity all = []) by (apply drop_ge; lia).
  congruence.
Qed.

Lemma stopped_run (es : list Event) (s : System) (all : list bytes) :
  status (loop s) <> Running ->
  filled s all ->
  let sent := map terminated (List.filter (accepted (relay s)) (calls es)) in
  filled (bounded_run es s) (all ++ sent) /\
  loop (bounded_run es s) = loop s /\
  conn (relay (bounded_run es s)) = conn (relay s) /\
  packetsTotal (relay (bounded_run es s)) = packetsTotal (relay s) /\
  relayedLinesTotal (relay (bounded_run es s))
    = (relayedLinesTotal (relay s) + length sent)%nat.
Proof.
  cbv zeta. revert s all.
  induction es as [|e es IH]; intros s all Hs Hf.
  - simpl. rewrite app_nil_r. repeat split; [apply Hf | apply Hf | lia].
  - destruct e as [l|c].
    + (* a call *)
      pose proof (RelayLine_before_send_effect (relay s) l)
        as (Epl & Ec & Ep & Eq & Erel & Ev).
      assert (Hstep : exists s1 : System,
                 bounded_step s (Call l) = s1 /\
                 filled s1 (all ++ (if accepted (relay s) l
                                    then [terminated l] else [])) /\
                 loop s1 = loop s /\
                 conn (relay s1) = conn (relay s) /\
                 packetsTotal (relay s1) = packetsTotal (relay s) /\
                 relayedLinesTotal (relay s1)
                   = (relayedLinesTotal (relay s)
                      + (if accepted (relay s) l then 1 else 0))%nat /\
                 packetLength (relay s1) = packetLength (relay s)).
      { eexists. split; [reflexivity|]. simpl.
        destruct (RelayLine_before_send (relay s) l) as [r1 v].
        simpl in Epl, Ec, Ep, Eq, Erel, Ev. subst v.
        assert (Hf1 : filled (mkSystem r1 (loop s) (waiting s)) all).
        { destruct Hf as [Hq Hw]. split; simpl; congruence. }
        destruct (accepted (relay s) l).
        - destruct (send_filled _ (terminated l) all Hf1)
            as (Hf' & Hl & Hc & Hp & Hr & Hpl).
          simpl in Hl, Hc, Hp, Hr, Hpl.
          rewrite Hl, Hc, Hp, Hr, Hpl.
          repeat split; try apply Hf'; congruence.
        - rewrite app_nil_r. simpl.
          repeat split; try apply Hf1; congruence. }
      destruct Hstep as (s1 & Hs1 & Hf1 & Hl1 & Hc1 & Hp1 & Hr1 & Hpl1).
      simpl calls. change (bounded_run (Call l :: es) s)
        with (bounded_run es (bounded_step s (Call l))).
      rewrite Hs1.
      destruct (IH s1 _ ltac:(rewrite Hl1; exact Hs) Hf1)
        as (Hf' & Hl' & Hc' & Hp' & Hr').
      rewrite (filter_guard_after_call accepted (relay s) (relay s1))
        in Hf', Hr'
        by (intros l'; unfold accepted; rewrite Hpl1; reflexivity).
      rewrite Hl', Hc', Hp', Hr', Hl1, Hc1, Hp1, Hr1.
      simpl List.filter.
      destruct (accepted (relay s) l); simpl in *.
      * rewrite <- app_assoc in Hf'. simpl in Hf'.
        repeat split; try apply Hf'; lia.
      * rewrite app_nil_r in Hf'.
        repeat split; try apply Hf'; lia.
    + (* a turn of the stopped loop *)
      assert (Hstep : bounded_step s (Turn c) = s).
      { simpl. rewrite (step_stopped c (relay s, loop s)) by exact Hs.
        simpl. rewrite (settle_filled _ all).
        - destruct s; reflexivity.
        - destruct s; exact Hf. }
      change (bounded_run (Turn c :: es) s)
        with (bounded_run es (bounded_step s (Turn c))).
      rewrite Hstep. simpl calls. apply IH; assumption.
Qed.

(** X4.  Once the loop has returned or panicked, nothing is written and
    no line leaves the queue.  Calls of [RelayLine] queue their lines
    until the channel holds 100; the call of every accepted line after
    that counts the line as relayed and then waits on the full channel,
    and no turn of the loop lets it through. *)
Theorem stopped_loop_fills_channel (es : list Event) (r : Relay)
    (st : Loop) :
  status st <> Running ->
  (length (bufferChannel r) <= capacity)%nat ->
  let s' := bounded_run es (mkSystem r st []) in
  let sent := map terminated (List.filter (accepted r) (calls es)) in
  bufferChannel (relay s') = take capacity (bufferChannel r ++ sent) /\
  waiting s' = drop capacity (bufferChannel r ++ sent) /\
  relayedLinesTotal (relay s') = (relayedLinesTotal r + length sent)%nat /\
  loop s' = st /\
  conn (relay s') = conn r /\
  packetsTotal (relay s') = packetsTotal r.
Proof.
  intros Hs Hlen. cbv zeta.
  assert (Hf : filled (mkSystem r st []) (bufferChannel r)).
  { split; simpl; [rewrite take_ge | rewrite drop_ge]; auto. }
  destruct (stopped_run es (mkSystem r st []) (bufferChannel r) Hs Hf)
    as ([Hq Hw] & Hl & Hc & Hp & Hr).
  simpl in *. auto 10.
Qed.

Lemma stopped_loop_fills_channel_witness :
  let r := fst (relayOutput_step Tick
                  (relayOutput_step Recv
                     (RelayLine (sample_relay 8 unreachable) counter_line,
                      start))) in
  let st := mkLoop (terminated counter_line) Returned in
  let es := List.repeat (Call gauge_line) 101
            ++ [Turn Recv; Turn Tick; Call []; Call counter_line] in
  let s' := bounded_run es (mkSystem r st []) in
  let sent := map terminated (List.filter (accepted r) (calls es)) in
  bufferChannel (relay s') = take capacity (bufferChannel r ++ sent) /\
  waiting s' = drop capacity (bufferChannel r ++ sent) /\
  relayedLinesTotal (relay s') = (relayedLinesTotal r + length sent)%nat /\
  loop s' = st /\
  conn (relay s') = conn r /\
  packetsTotal (relay s') = packetsTotal r.
Proof.
  intros r st es.
  apply (stopped_loop_fills_channel es r st).
  - discriminate.
  - vm_compute. repeat constructor.
Defined.

(** The run of the witness, counted: after the failed send 102 accepted
    lines are passed; 100 are queued, 2 calls wait, and all 102 are
    counted as relayed on top of the first line. *)
Example hundred_queued_two_waiting :
  let r := fst (relayOutput_step Tick
                  (relayOutput_step Recv
                     (RelayLine (sample_relay 8 unreachable) counter_line,
                      start))) in
  let st := mkLoop (terminated counter_line) Returned in
  let es := List.repeat (Call gauge_line) 101
            ++ [Turn Recv; Turn Tick; Call []; Call counter_line] in
  let s' := bounded_run es (mkSystem r st []) in
  snd (relayOutput_step Tick
         (relayOutput_step Recv
            (RelayLine (sample_relay 8 unreachable) counter_line, start)))
    = st /\
  length (bufferChannel (relay s')) = 100%nat /\
  waiting s' = [terminated gauge_line; terminated counter_line] /\
  relayedLinesTotal (relay s') = 103%nat /\
  written (conn (relay s')) = [terminated counter_line].
Proof. vm_compute. repeat split. Qed.

End BoundedChannelFacts.
